(** * QKD: a BB84 key generator and an XOR text cipher

    A shallow embedding of the notebook [explore.ipynb]: the key generator
    [gen_bin_key], the conversions [unicode_to_binary] and
    [binary_to_unicode], and the cipher [encrypt] / [decrypt].

    Conventions of the embedding.
    - A Python [str] is the list of its code points ([pystr]); [ord] and
      [chr] are then the identity on the valid range.
    - A call either returns, raises, or (for the [while] loop of the cipher)
      runs out of the fuel it was given: an [outcome].
    - Random draws are read from an explicit tape ([Randomness]).
    - The simulator of the quantum circuit keeps one state per qubit, with
      amplitudes written exactly as integers over a power of [sqrt 2]. *)

From Stdlib Require Import String Ascii DecimalString.
From Stdlib Require Import List NArith ZArith QArith Lia Bool Arith Sorted.
Import ListNotations.

Local Close Scope Q_scope.
Local Open Scope nat_scope.

(* ================================================================== *)
(** * Outcomes *)

Inductive exn : Type := ValueError | IndexError | KeyError.

Inductive outcome (A : Type) : Type :=
| Ret (a : A)
| Raise (e : exn)
| OutOfFuel.

Arguments Ret {A} a.
Arguments Raise {A} e.
Arguments OutOfFuel {A}.

Definition bind {A B : Type} (m : outcome A) (k : A -> outcome B) : outcome B :=
  match m with
  | Ret a => k a
  | Raise e => Raise e
  | OutOfFuel => OutOfFuel
  end.

Declare Scope outcome_scope.
Delimit Scope outcome_scope with outcome.
Notation "x <- m ;; k" := (bind m (fun x => k))
  (at level 61, m at next level, right associativity) : outcome_scope.
Local Open Scope outcome_scope.

(** [for i in l: s = body(i, s)] *)
Fixpoint for_each {S : Type} (l : list nat) (body : nat -> S -> outcome S) (s : S)
  : outcome S :=
  match l with
  | [] => Ret s
  | i :: l' => s' <- body i s ;; for_each l' body s'
  end.

(** [[f(x) for x in l]] *)
Fixpoint map_each {A B : Type} (f : A -> outcome B) (l : list A) : outcome (list B) :=
  match l with
  | [] => Ret []
  | x :: l' => y <- f x ;; ys <- map_each f l' ;; Ret (y :: ys)
  end.

(** [l[i]] for [0 <= i] *)
Definition getitem {A : Type} (l : list A) (i : nat) : outcome A :=
  match nth_error l i with
  | Some x => Ret x
  | None => Raise IndexError
  end.

(** [l[i:j]] for [0 <= i <= j]; a slice never raises. *)
Definition slice {A : Type} (l : list A) (i j : nat) : list A :=
  firstn (j - i) (skipn i l).

(** [range(n)] and [range(0, n, step)] *)
Definition range (n : nat) : list nat := seq 0 n.

Definition range_step (n step : nat) : list nat :=
  map (fun j => step * j) (seq 0 ((n + (step - 1)) / step)).

(* ================================================================== *)
(** * Strings *)

(** A Python string, as its code points. *)
Definition pystr : Type := list N.

Definition pystr_of_string (s : string) : pystr :=
  map N_of_ascii (list_ascii_of_string s).

Definition char_0 : N := 48.
Definition char_1 : N := 49.

(** [format(n, 'b')]: the binary digits of [n], most significant first. *)
Fixpoint bin_pos (p : positive) (acc : pystr) : pystr :=
  match p with
  | xH => char_1 :: acc
  | xO q => bin_pos q (char_0 :: acc)
  | xI q => bin_pos q (char_1 :: acc)
  end.

Definition format_b (n : N) : pystr :=
  match n with
  | N0 => [char_0]
  | Npos p => bin_pos p []
  end.

(** [format(n, '08b')]: zero-padded on the left up to width 8; a longer
    digit string is left as it is. *)
Definition format_08b (n : N) : pystr :=
  let s := format_b n in repeat char_0 (8 - length s) ++ s.

(** [int(s, 2)] for a string of digit characters: the value of a non-empty
    string of '0' and '1', [ValueError] otherwise. *)
Definition bit_of_char (c : N) : option N :=
  if (c =? char_0)%N then Some 0%N
  else if (c =? char_1)%N then Some 1%N
  else None.

Fixpoint int2_from (acc : N) (s : pystr) : outcome N :=
  match s with
  | [] => Ret acc
  | c :: s' =>
      match bit_of_char c with
      | Some d => int2_from (2 * acc + d)%N s'
      | None => Raise ValueError
      end
  end.

Definition int_base2 (s : pystr) : outcome N :=
  match s with
  | [] => Raise ValueError
  | _ => int2_from 0%N s
  end.

(** [chr(n)] *)
Definition chr (n : N) : outcome N :=
  if (n <? 1114112)%N then Ret n else Raise ValueError.

(** [int(c)] for a one-character string [c]: the ASCII digits; the other
    ASCII characters raise [ValueError].  (Python also reads the decimal
    digits of other scripts; those are treated here like the non-digits.) *)
Definition int_char (c : N) : outcome N :=
  if ((48 <=? c) && (c <=? 57))%N then Ret (c - 48)%N else Raise ValueError.

(** [str(n)] for [n >= 0]: the decimal digits. *)
Definition str_N (n : N) : pystr :=
  pystr_of_string (NilEmpty.string_of_uint (N.to_uint n)).

(* ================================================================== *)
(** * The text <-> binary conversions *)

(** [''.join(format(ord(char), '08b') for char in text)] *)
Definition unicode_to_binary (text : pystr) : pystr :=
  flat_map format_08b text.

(** [''.join([chr(int(binary[i:i+8], 2)) for i in range(0, len(binary), 8)])] *)
Definition binary_to_unicode (binary : pystr) : outcome pystr :=
  map_each (fun i => n <- int_base2 (slice binary i (i + 8)) ;; chr n)
           (range_step (length binary) 8).

(* ================================================================== *)
(** * The cipher *)

(** [while len(key) < n: key += key], with fuel for the iterations. *)
Fixpoint stretch_key (fuel : nat) (key : pystr) (n : nat) : outcome pystr :=
  if length key <? n then
    match fuel with
    | O => OutOfFuel
    | S fuel' => stretch_key fuel' (key ++ key) n
    end
  else Ret key.

(** One round of the XOR loop: [acc += str(int(text[i]) ^ int(key[i]))]. *)
Definition xor_step (text key : pystr) (i : nat) (acc : pystr) : outcome pystr :=
  t <- getitem text i ;;
  a <- int_char t ;;
  k <- getitem key i ;;
  b <- int_char k ;;
  Ret (acc ++ str_N (N.lxor a b)).

Definition encrypt (fuel : nat) (text key : pystr) : outcome pystr :=
  let text := unicode_to_binary text in
  key <- stretch_key fuel key (length text) ;;
  encrypted_text <- for_each (range (length text)) (xor_step text key) [] ;;
  binary_to_unicode encrypted_text.

Definition decrypt (fuel : nat) (text key : pystr) : outcome pystr :=
  let binary_encrypted_text := unicode_to_binary text in
  key <- stretch_key fuel key (length binary_encrypted_text) ;;
  decrypted_text <-
    for_each (range (length binary_encrypted_text))
             (xor_step binary_encrypted_text key) [] ;;
  binary_to_unicode decrypted_text.

(** The run recorded in the notebook. *)
Definition notebook_msg : pystr :=
  pystr_of_string "Quantum Secrets Encoded in Starlight"%string.

Definition notebook_key : pystr :=
  pystr_of_string
    "111110011010001011011011111000110101011101010001110100110110000000010000000010110101001000000101110110010110001"%string.

Definition notebook_encrypted : pystr :=
  [168; 215; 186; 141; 35; 36; 190; 64; 67; 110; 49; 119; 188; 23; 128; 101;
   242; 168; 205; 204; 194; 165; 68; 54; 205; 101; 146; 148; 146; 234; 29;
   225; 52; 32; 37; 244]%N.

(* ================================================================== *)
(** * Bits, bases and simulated qubits *)

(** The elements of [[0, 1]] and of [["Z", "X"]]. *)
Inductive Bit : Type := Zero | One.
Inductive Basis : Type := BasisZ | BasisX.

Definition Bit_eqb (a b : Bit) : bool :=
  match a, b with
  | Zero, Zero | One, One => true
  | _, _ => false
  end.

Definition Basis_eqb (a b : Basis) : bool :=
  match a, b with
  | BasisZ, BasisZ | BasisX, BasisX => true
  | _, _ => false
  end.

(** [cirq.I], [cirq.X], [cirq.H] *)
Inductive gate : Type := gate_I | gate_X | gate_H.

(** [encode_gates = {0: cirq.I, 1: cirq.X}] *)
Definition encode_gates (b : Bit) : gate :=
  match b with Zero => gate_I | One => gate_X end.

(** [basis_gates = {"X": cirq.H, "Z": cirq.I}] *)
Definition basis_gates (b : Basis) : gate :=
  match b with BasisX => gate_H | BasisZ => gate_I end.

(** The state of one qubit: [(amp0 |0> + amp1 |1>) / sqrt(2)^rt2].  The
    three gates keep the amplitudes in this form, so the simulation is
    exact. *)
Record qstate : Type := { amp0 : Z; amp1 : Z; rt2 : nat }.

Definition ket0 : qstate := {| amp0 := 1; amp1 := 0; rt2 := 0 |}.

(** I = [[1 0] [0 1]], X = [[0 1] [1 0]], H = [[1 1] [1 -1]] / sqrt 2 *)
Definition apply_gate (g : gate) (s : qstate) : qstate :=
  match g with
  | gate_I => s
  | gate_X => {| amp0 := amp1 s; amp1 := amp0 s; rt2 := rt2 s |}
  | gate_H => {| amp0 := amp0 s + amp1 s; amp1 := amp0 s - amp1 s; rt2 := S (rt2 s) |}
  end.

Definition amp (b : Bit) (s : qstate) : Z :=
  match b with Zero => amp0 s | One => amp1 s end.

(** Born rule: the probability of reading [b] is the squared amplitude. *)
Definition prob (b : Bit) (s : qstate) : Q :=
  Qmake (amp b s * amp b s) (Pos.shiftl_nat 1 (rt2 s)).

(** Sampling one outcome from the distribution [[prob 0; prob 1]] with a
    uniform draw [u] in [[0, 1)]: the outcome is 0 when [u] falls below the
    first cumulative weight, 1 otherwise. *)
Definition measure_qubit (s : qstate) (u : Q) : Bit :=
  if Qle_bool (prob Zero s) u then One else Zero.

(* ================================================================== *)
(** * Circuits and their simulation *)

Inductive operation : Type :=
| Op (g : gate) (qubit : nat)
| Measure (qubits : list nat) (key : string).

Definition circuit : Type := list operation.

(** [cirq.measure(qubits, key=...)]; measuring no qubit at all is refused. *)
Definition measure (qubits : list nat) (key : string) : outcome operation :=
  match qubits with
  | [] => Raise ValueError
  | _ => Ret (Measure qubits key)
  end.

(** The simulator keeps every named qubit on its own, all starting in
    [|0>], and records what each measurement read. *)
Record sim_state : Type :=
  { register : nat -> qstate;
    measurements : list (string * list Bit) }.

Definition update (r : nat -> qstate) (q : nat) (f : qstate -> qstate) : nat -> qstate :=
  fun q' => if Nat.eqb q' q then f (r q') else r q'.

(** One operation; [u q] is the uniform draw used to read qubit [q].  The
    measurement of this program is the last operation of its circuit, so
    the register is left as it is once read. *)
Definition sim_step (u : nat -> Q) (s : sim_state) (op : operation) : sim_state :=
  match op with
  | Op g q =>
      {| register := update (register s) q (apply_gate g);
         measurements := measurements s |}
  | Measure qs key =>
      {| register := register s;
         measurements :=
           measurements s ++ [(key, map (fun q => measure_qubit (register s q) (u q)) qs)] |}
  end.

(** [cirq.Simulator().run(circuit)] (one repetition) *)
Definition sim_run (u : nat -> Q) (c : circuit) : sim_state :=
  fold_left (sim_step u) c {| register := fun _ => ket0; measurements := [] |}.

(** [results.measurements[key][0]] *)
Fixpoint lookup_measurement (m : list (string * list Bit)) (key : string)
  : outcome (list Bit) :=
  match m with
  | [] => Raise KeyError
  | (k, v) :: m' => if String.eqb k key then Ret v else lookup_measurement m' key
  end.

(* ================================================================== *)
(** * Randomness *)

(** The draws of one call: [draw_key i], [draw_bases_A i], [draw_bases_B i]
    are the [i]-th elements picked by the three calls of [choices], and
    [draw_unit q] is the uniform number in [[0, 1)] with which the
    simulator reads qubit [q]. *)
Record Randomness : Type :=
  { draw_key : nat -> Bit;
    draw_bases_A : nat -> Basis;
    draw_bases_B : nat -> Basis;
    draw_unit : nat -> Q }.

Definition unit_draws (rnd : Randomness) : Prop :=
  forall q, (0 <= draw_unit rnd q)%Q /\ (draw_unit rnd q < 1)%Q.

(** [choices(population, k=k)] *)
Definition choices {A : Type} (draw : nat -> A) (k : nat) : list A :=
  map draw (seq 0 k).

(* ================================================================== *)
(** * The key generator *)

Definition second_person_key : string := "second person key".

Definition eavesdropper_msg : pystr :=
  pystr_of_string "There was an eavesdropper!".

(** [str(bit)] *)
Definition str_bit (b : Bit) : pystr :=
  match b with Zero => [char_0] | One => [char_1] end.

(** [[a, ...] == [b, ...]] *)
Fixpoint bits_eqb (a b : list Bit) : bool :=
  match a, b with
  | [], [] => true
  | x :: a', y :: b' => Bit_eqb x y && bits_eqb a' b'
  | _, _ => false
  end.

(** First person key generation: the loop that fills [encoder_circuit]. *)
Definition encoder_step (encoder_key : list Bit) (encoder_bases : list Basis)
    (qubits : list nat) (bit : nat) (encoder_circuit : circuit) : outcome circuit :=
  encode_value <- getitem encoder_key bit ;;
  let encode_gate := encode_gates encode_value in
  basis_value <- getitem encoder_bases bit ;;
  let basis_gate := basis_gates basis_value in
  qubit <- getitem qubits bit ;;
  Ret ((encoder_circuit ++ [Op encode_gate qubit]) ++ [Op basis_gate qubit]).

(** Second person key reception: the loop that fills [decoder_circuit]. *)
Definition decoder_step (decoder_bases : list Basis) (qubits : list nat)
    (bit : nat) (decoder_circuit : circuit) : outcome circuit :=
  basis_value <- getitem decoder_bases bit ;;
  let basis_gate := basis_gates basis_value in
  qubit <- getitem qubits bit ;;
  Ret (decoder_circuit ++ [Op basis_gate qubit]).

(** Compare: one round of the sifting loop. *)
Definition sift_step (encoder_bases decoder_bases : list Basis)
    (encoder_key decoder_key : list Bit) (bit : nat)
    (finals : list Bit * list Bit) : outcome (list Bit * list Bit) :=
  a <- getitem encoder_bases bit ;;
  b <- getitem decoder_bases bit ;;
  if Basis_eqb a b then
    x <- getitem encoder_key bit ;;
    y <- getitem decoder_key bit ;;
    Ret (fst finals ++ [x], snd finals ++ [y])
  else Ret finals.

Definition sift (num_bits : nat) (encoder_bases decoder_bases : list Basis)
    (encoder_key decoder_key : list Bit) : outcome (list Bit * list Bit) :=
  for_each (range num_bits)
           (sift_step encoder_bases decoder_bases encoder_key decoder_key)
           ([], []).

(** [int(n * .5)]: halving a list length in floating point is exact, and
    [int] drops the fraction. *)
Definition int_half (n : nat) : nat := n / 2.

(** Convert half of the key: compare the disclosed prefixes, keep the rest. *)
Definition convert_half (final_encoder_key final_decoder_key : list Bit) : pystr :=
  let num_bits_to_compare := int_half (length final_encoder_key) in
  if bits_eqb (slice final_encoder_key 0 num_bits_to_compare)
              (slice final_decoder_key 0 num_bits_to_compare)
  then
    let final_encoder_key := skipn num_bits_to_compare final_encoder_key in
    flat_map str_bit final_encoder_key
  else eavesdropper_msg.

(** The circuit of one call and what its simulation reads. *)
Definition bb84_circuit (num_bits : nat) (encoder_key : list Bit)
    (encoder_bases decoder_bases : list Basis) : outcome circuit :=
  let qubits := range num_bits in
  encoder_circuit <-
    for_each (range num_bits) (encoder_step encoder_key encoder_bases qubits) [] ;;
  decoder_circuit <-
    for_each (range num_bits) (decoder_step decoder_bases qubits) [] ;;
  m <- measure qubits second_person_key ;;
  let decoder_circuit := decoder_circuit ++ [m] in
  Ret (encoder_circuit ++ decoder_circuit).

Definition gen_bin_key (min_key_length : Z) (rnd : Randomness) : outcome pystr :=
  let num_bits := Z.to_nat (min_key_length * 4) in
  let encoder_key := choices (draw_key rnd) num_bits in
  let encoder_bases := choices (draw_bases_A rnd) num_bits in
  let decoder_bases := choices (draw_bases_B rnd) num_bits in
  bb84 <- bb84_circuit num_bits encoder_key encoder_bases decoder_bases ;;
  let results := sim_run (draw_unit rnd) bb84 in
  decoder_key <- lookup_measurement (measurements results) second_person_key ;;
  finals <- sift num_bits encoder_bases decoder_bases encoder_key decoder_key ;;
  Ret (convert_half (fst finals) (snd finals)).

(* ================================================================== *)
(** * The cipher, as the specification words it *)

Definition binary_digit (c : N) : Prop := c = char_0 \/ c = char_1.

(** A string of '0' / '1' characters. *)
Definition binary_string (s : pystr) : Prop := Forall binary_digit s.

(** A text whose code points are all in 0..255. *)
Definition latin1 (text : pystr) : Prop := Forall (fun c => (c < 256)%N) text.

Definition digit_value (c : N) : N := if (c =? char_1)%N then 1%N else 0%N.

(** The eight binary digits of a code point, most significant first. *)
Definition eight_bits (c : N) : pystr :=
  map (fun i => if N.testbit c i then char_1 else char_0) [7; 6; 5; 4; 3; 2; 1; 0]%N.

(** XOR of two binary digits, as a digit. *)
Definition xor_digit (a b : N) : N :=
  if (digit_value a =? digit_value b)%N then char_0 else char_1.

(** Bit [i] of the text against bit [i] of the key repeated end to end. *)
Definition xor_repeated_key (bits key : pystr) : pystr :=
  map (fun i => xor_digit (nth i bits char_0) (nth (i mod length key) key char_0))
      (seq 0 (length bits)).

(** The value of a string of binary digits. *)
Definition bits_value (s : pystr) : N :=
  fold_left (fun acc c => (2 * acc + digit_value c)%N) s 0%N.

(** The consecutive groups of eight characters (the last may be shorter). *)
Definition chunks8 (s : pystr) : list pystr :=
  map (fun i => slice s i (i + 8)) (range_step (length s) 8).

Definition regroup (bits : pystr) : pystr := map bits_value (chunks8 bits).

(** Binary-convert, XOR against the repeated key, regroup. *)
Definition xor_cipher_spec (text key : pystr) : pystr :=
  regroup (xor_repeated_key (flat_map eight_bits text) key).

(* ================================================================== *)
(** * Vocabulary of the cipher proofs *)

Ltac split_digits :=
  repeat match goal with
         | H : Forall binary_digit (_ :: _) |- _ => inversion H; clear H; subst
         | H : binary_digit _ |- _ => destruct H; subst
         end.

(** [k] is [key] written end to end a whole number of times. *)
Definition repeats (key k : pystr) : Prop :=
  (exists m, length k = m * length key)
  /\ forall i, i < length k -> nth i k char_0 = nth (i mod length key) key char_0.

(** A small text and a small key. *)
Definition text_HI : pystr := [72; 73]%N.
Definition key_1010 : pystr := [49; 48; 49; 48]%N.

Ltac byte_text :=
  unfold latin1; repeat (apply Forall_cons; [reflexivity|]); apply Forall_nil.

Ltac binary_key :=
  unfold binary_string, binary_digit;
  repeat (apply Forall_cons; [first [left; reflexivity | right; reflexivity]|]);
  apply Forall_nil.

(* ================================================================== *)
(** * One qubit: preparation and measurement *)

(** The qubit that encodes [bit] in [basis]. *)
Definition prepare (basis : Basis) (bit : Bit) : qstate :=
  apply_gate (basis_gates basis) (apply_gate (encode_gates bit) ket0).

(** Reading, in basis [basisB], the qubit prepared as [(basisA, bit)]. *)
Definition measurement (basisA : Basis) (bit : Bit) (basisB : Basis) (u : Q) : Bit :=
  measure_qubit (apply_gate (basis_gates basisB) (prepare basisA bit)) u.

(** What a circuit does to qubit [q]. *)
Definition gates_on (c : circuit) (q : nat) (st : qstate) : qstate :=
  fold_left (fun st op =>
               match op with
               | Op g q' => if Nat.eqb q q' then apply_gate g st else st
               | Measure _ _ => st
               end) c st.

Definition is_gate (op : operation) : bool :=
  match op with Op _ _ => true | Measure _ _ => false end.

(** The operations the two loops append for qubit [i]. *)
Definition encoder_ops (rnd : Randomness) (i : nat) : circuit :=
  [Op (encode_gates (draw_key rnd i)) i; Op (basis_gates (draw_bases_A rnd i)) i].

Definition decoder_ops (rnd : Randomness) (i : nat) : circuit :=
  [Op (basis_gates (draw_bases_B rnd i)) i].

(** The positions that sifting keeps, in ascending order. *)
Definition kept_positions (num_bits : nat) (encoder_bases decoder_bases : list Basis)
  : list nat :=
  filter (fun i => Basis_eqb (nth i encoder_bases BasisZ) (nth i decoder_bases BasisZ))
         (seq 0 num_bits).

(** What the simulation of the circuit reads: qubit [q], prepared as
    [(draw_bases_A q, draw_key q)], is measured in basis [draw_bases_B q]. *)
Definition decoder_key_of (rnd : Randomness) (n : nat) : list Bit :=
  map (fun q => measurement (draw_bases_A rnd q) (draw_key rnd q)
                            (draw_bases_B rnd q) (draw_unit rnd q))
      (seq 0 n).

(** The two sifted sequences of a call. *)
Definition sifted_A (rnd : Randomness) (n : nat) : list Bit :=
  map (fun i => nth i (choices (draw_key rnd) n) Zero)
      (kept_positions n (choices (draw_bases_A rnd) n) (choices (draw_bases_B rnd) n)).

Definition sifted_B (rnd : Randomness) (n : nat) : list Bit :=
  map (fun i => nth i (decoder_key_of rnd n) Zero)
      (kept_positions n (choices (draw_bases_A rnd) n) (choices (draw_bases_B rnd) n)).

(* ================================================================== *)
(** * Sample draws *)

Definition half : Q := 1 # 2.

(** Every basis Z, every key bit 1. *)
Definition rnd_all_Z : Randomness :=
  {| draw_key := fun _ => One;
     draw_bases_A := fun _ => BasisZ;
     draw_bases_B := fun _ => BasisZ;
     draw_unit := fun _ => half |}.

(** Alternating key bits; the second party picks X on every third qubit. *)
Definition rnd_mixed : Randomness :=
  {| draw_key := fun q => if Nat.even q then One else Zero;
     draw_bases_A := fun _ => BasisZ;
     draw_bases_B := fun q => if Nat.eqb (q mod 3) 0 then BasisX else BasisZ;
     draw_unit := fun _ => half |}.

(** The two parties agree on the basis of qubit 0 only. *)
Definition rnd_one_match : Randomness :=
  {| draw_key := fun _ => One;
     draw_bases_A := fun _ => BasisZ;
     draw_bases_B := fun q => match q with O => BasisZ | S _ => BasisX end;
     draw_unit := fun _ => half |}.

(* ================================================================== *)
(** * Further vocabulary *)

(** One of the characters '0' .. '9'. *)
Definition ascii_digit (c : N) : Prop := (48 <= c)%N /\ (c <= 57)%N.

(** [key] repeated end to end and cut to [n] characters. *)
Definition repeated_key (key : pystr) (n : nat) : pystr :=
  map (fun i => nth (i mod length key) key char_0) (seq 0 n).

(** Every key character that the XOR loop reads for [n] bits of text is
    '0' or '1'. *)
Definition key_usable (key : pystr) (n : nat) : Prop :=
  forall i, i < n -> binary_digit (nth (i mod length key) key char_0).

(** What round [i] of the XOR loop appends. *)
Definition xor_output (text key : pystr) (i : nat) : outcome pystr :=
  t <- getitem text i ;;
  a <- int_char t ;;
  k <- getitem key i ;;
  b <- int_char k ;;
  Ret (str_N (N.lxor a b)).

(* ================================================================== *)
(** * The usage cell of the notebook *)

(** Generate a key, encrypt the message with it, decrypt the result; the
    three strings the cell prints after the message. *)
Definition example_usage (rnd : Randomness) (fuel : nat)
  : outcome (pystr * pystr * pystr) :=
  let msg := notebook_msg in
  let key_strength := 100%Z in
  key <- gen_bin_key key_strength rnd ;;
  encrypted_text <- encrypt fuel msg key ;;
  decrypted_text <- decrypt fuel encrypted_text key ;;
  Ret (key, encrypted_text, decrypted_text).

(* ################################################################## *)
(** * Lemmas and theorems *)

(* ================================================================== *)
(** * Concrete runs *)

Example notebook_encrypt :
  encrypt 10 notebook_msg notebook_key = Ret notebook_encrypted.
Proof. vm_compute. reflexivity. Qed.

Example notebook_decrypt :
  decrypt 10 notebook_encrypted notebook_key = Ret notebook_msg.
Proof. vm_compute. reflexivity. Qed.

Example encrypt_HI : encrypt 16 text_HI key_1010 = Ret [226; 227]%N.
Proof. reflexivity. Qed.

(** Eight qubits: positions 1, 2, 4, 5, 7 survive sifting with bits
    0, 1, 1, 0, 0; the first two are compared and dropped. *)
Example gen_bin_key_mixed : gen_bin_key 2 rnd_mixed = Ret [char_1; char_0; char_0].
Proof. vm_compute. reflexivity. Qed.

Example gen_bin_key_no_qubit : gen_bin_key 0 rnd_mixed = Raise ValueError.
Proof. reflexivity. Qed.

(** A qubit read in the other basis: both outcomes have probability 1/2. *)
Example prob_other_basis :
  (prob Zero (apply_gate (basis_gates BasisX) (prepare BasisZ One)) == 1 # 2)%Q
  /\ (prob One (apply_gate (basis_gates BasisX) (prepare BasisZ One)) == 1 # 2)%Q.
Proof. split; reflexivity. Qed.

(* ================================================================== *)
(** * Generic facts about outcomes and loops *)

Lemma for_each_app {S : Type} (body : nat -> S -> outcome S) l1 l2 (s : S) :
  for_each (l1 ++ l2) body s = (s' <- for_each l1 body s ;; for_each l2 body s').
Proof.
  revert s. induction l1 as [|i l1 IH]; intros s; simpl; [reflexivity|].
  destruct (body i s); simpl; auto.
Qed.

(** A loop whose every round appends [g i] to the accumulator. *)
Lemma for_each_appends {A : Type} (body : nat -> list A -> outcome (list A))
      (g : nat -> list A) (l : list nat) :
  (forall i acc, In i l -> body i acc = Ret (acc ++ g i)) ->
  forall acc, for_each l body acc = Ret (acc ++ flat_map g l).
Proof.
  induction l as [|i l IH]; intros Hb acc; simpl.
  - now rewrite app_nil_r.
  - rewrite Hb by now left. simpl.
    rewrite IH by (intros; apply Hb; now right).
    now rewrite app_assoc.
Qed.

Lemma map_each_pure {A B : Type} (f : A -> outcome B) (g : A -> B) (l : list A) :
  (forall x, In x l -> f x = Ret (g x)) ->
  map_each f l = Ret (map g l).
Proof.
  induction l as [|x l IH]; intros Hf; simpl; [reflexivity|].
  rewrite Hf by now left. simpl.
  rewrite IH by (intros; apply Hf; now right). reflexivity.
Qed.

Lemma flat_map_singleton {A B : Type} (f : A -> B) (l : list A) :
  flat_map (fun x => [f x]) l = map f l.
Proof. induction l; simpl; congruence. Qed.

Lemma getitem_nth {A : Type} (l : list A) (i : nat) (d : A) :
  i < length l -> getitem l i = Ret (nth i l d).
Proof.
  intros Hi. unfold getitem.
  now rewrite (nth_error_nth' l d Hi).
Qed.

Lemma map_nth_seq {A : Type} (l : list A) (d : A) :
  map (fun i => nth i l d) (seq 0 (length l)) = l.
Proof.
  apply nth_ext with (d := d) (d' := d).
  - now rewrite length_map, length_seq.
  - intros i Hi. rewrite length_map, length_seq in Hi.
    rewrite (nth_indep _ d (nth 0 l d)) by now rewrite length_map, length_seq.
    rewrite (map_nth (fun i => nth i l d) (seq 0 (length l)) 0 i).
    now rewrite seq_nth.
Qed.

Lemma nth_map_seq {A : Type} (f : nat -> A) (n i : nat) (d : A) :
  i < n -> nth i (map f (seq 0 n)) d = f i.
Proof.
  intros Hi.
  rewrite (nth_indep _ d (f 0)) by now rewrite length_map, length_seq.
  rewrite (map_nth f (seq 0 n) 0 i). now rewrite seq_nth.
Qed.

(* ================================================================== *)
(** * Binary digits of a code point *)

Lemma below_256_enum (c : N) :
  (c < 256)%N -> In c (map N.of_nat (seq 0 256)).
Proof.
  intros Hc. apply in_map_iff. exists (N.to_nat c). split.
  - apply N2Nat.id.
  - apply in_seq. lia.
Qed.

Lemma format_08b_eight_bits (c : N) :
  (c < 256)%N -> format_08b c = eight_bits c.
Proof.
  intros Hc. apply below_256_enum in Hc. revert c Hc.
  assert (H : forallb (fun c => if list_eq_dec N.eq_dec (format_08b c) (eight_bits c)
                                then true else false)
                      (map N.of_nat (seq 0 256)) = true) by (vm_compute; reflexivity).
  intros c Hin.
  rewrite forallb_forall in H. specialize (H c Hin).
  now destruct (list_eq_dec N.eq_dec (format_08b c) (eight_bits c)).
Qed.

Lemma bits_value_eight_bits (c : N) :
  (c < 256)%N -> bits_value (eight_bits c) = c.
Proof.
  intros Hc. apply below_256_enum in Hc. revert c Hc.
  assert (H : forallb (fun c => N.eqb (bits_value (eight_bits c)) c)
                      (map N.of_nat (seq 0 256)) = true) by (vm_compute; reflexivity).
  intros c Hin. rewrite forallb_forall in H. now apply N.eqb_eq, H.
Qed.

Lemma eight_bits_length (c : N) : length (eight_bits c) = 8.
Proof. reflexivity. Qed.

Lemma eight_bits_binary (c : N) : binary_string (eight_bits c).
Proof.
  unfold binary_string, eight_bits. apply Forall_map, Forall_forall.
  intros i _. unfold binary_digit. destruct (N.testbit c i); auto.
Qed.

(** Eight binary digits are the digits of their value, which is a byte. *)
Lemma eight_bits_bits_value (chunk : pystr) :
  length chunk = 8 -> binary_string chunk ->
  eight_bits (bits_value chunk) = chunk /\ (bits_value chunk < 256)%N.
Proof.
  unfold binary_string. intros Hlen Hbin.
  do 9 (destruct chunk as [|? chunk]; try discriminate Hlen).
  split_digits; split; reflexivity.
Qed.

Lemma bin_pos_length (p : positive) (acc : pystr) :
  length (bin_pos p acc) = Pos.size_nat p + length acc.
Proof.
  revert acc. induction p; intros acc; simpl; rewrite ?IHp; simpl; lia.
Qed.

Lemma bin_pos_binary (p : positive) (acc : pystr) :
  binary_string acc -> binary_string (bin_pos p acc).
Proof.
  unfold binary_string, binary_digit.
  revert acc. induction p; intros acc Hacc; simpl; auto.
Qed.

Lemma int2_from_bin_pos (p : positive) (a : N) (rest : pystr) :
  int2_from a (bin_pos p rest)
  = int2_from (a * 2 ^ N.of_nat (Pos.size_nat p) + Npos p)%N rest.
Proof.
  revert rest. induction p as [q IH|q IH|]; intros rest.
  - cbn [bin_pos Pos.size_nat]. rewrite IH. cbn [int2_from bit_of_char].
    change (bit_of_char char_1) with (Some 1%N). cbv iota.
    f_equal. rewrite Nat2N.inj_succ, N.pow_succ_r'. lia.
  - cbn [bin_pos Pos.size_nat]. rewrite IH. cbn [int2_from].
    change (bit_of_char char_0) with (Some 0%N). cbv iota.
    f_equal. rewrite Nat2N.inj_succ, N.pow_succ_r'. lia.
  - cbn [bin_pos Pos.size_nat int2_from].
    change (bit_of_char char_1) with (Some 1%N). cbv iota.
    f_equal. change (2 ^ N.of_nat 1)%N with 2%N. lia.
Qed.

Lemma int2_from_zeros (k : nat) (s : pystr) :
  int2_from 0 (repeat char_0 k ++ s) = int2_from 0 s.
Proof. induction k; simpl; auto. Qed.

(** [2^(size p - 1) <= p < 2^(size p)] *)
Lemma size_nat_bounds (p : positive) :
  (2 ^ N.of_nat (Pos.size_nat p) <= 2 * Npos p
   /\ Npos p < 2 ^ N.of_nat (Pos.size_nat p))%N.
Proof.
  induction p as [q [IH1 IH2]|q [IH1 IH2]|]; cbn [Pos.size_nat].
  - rewrite Nat2N.inj_succ, N.pow_succ_r'. lia.
  - rewrite Nat2N.inj_succ, N.pow_succ_r'. lia.
  - change (2 ^ N.of_nat 1)%N with 2%N. lia.
Qed.

(** Formatting never loses digits: the string reads back as the code point. *)
Lemma int_base2_format_08b (c : N) : int_base2 (format_08b c) = Ret c.
Proof.
  assert (H : int2_from 0 (format_08b c) = Ret c).
  { unfold format_08b. rewrite int2_from_zeros.
    destruct c as [|p]; [reflexivity|]. unfold format_b.
    rewrite int2_from_bin_pos. simpl. reflexivity. }
  unfold int_base2. destruct (format_08b c) eqn:E; [|exact H].
  exfalso. unfold format_08b in E. apply app_eq_nil in E. destruct E as [_ E].
  destruct c as [|p]; [discriminate|]. unfold format_b in E.
  apply (f_equal (@length N)) in E. rewrite bin_pos_length in E.
  destruct p; simpl in E; discriminate.
Qed.

(* ================================================================== *)
(** * Groups of eight *)

Lemma slice_block_head (b r : pystr) :
  length b = 8 -> slice (b ++ r) 0 (0 + 8) = b.
Proof.
  intros Hb. unfold slice. cbn [skipn Nat.add Nat.sub].
  rewrite firstn_app, Hb, Nat.sub_diag, firstn_O, app_nil_r, <- Hb.
  apply firstn_all.
Qed.

Lemma slice_block_tail (b r : pystr) (i : nat) :
  length b = 8 -> slice (b ++ r) (8 + i) (8 + i + 8) = slice r i (i + 8).
Proof.
  intros Hb. unfold slice.
  replace (8 + i + 8 - (8 + i)) with 8 by lia.
  replace (i + 8 - i) with 8 by lia.
  rewrite skipn_app, Hb.
  rewrite (skipn_all2 b) by lia.
  replace (8 + i - 8) with i by lia. reflexivity.
Qed.

Lemma range_step_8_succ (m : nat) :
  range_step (8 + m) 8 = 0 :: map (fun i => 8 + i) (range_step m 8).
Proof.
  unfold range_step.
  replace ((8 + m + (8 - 1)) / 8) with (S ((m + (8 - 1)) / 8)).
  - cbn [seq map]. rewrite <- seq_shift, !map_map. f_equal.
    apply map_ext. intros j. lia.
  - replace (8 + m + (8 - 1)) with (m + (8 - 1) + 1 * 8) by lia.
    rewrite Nat.div_add by lia. lia.
Qed.

Lemma chunks8_cons (b r : pystr) :
  length b = 8 -> chunks8 (b ++ r) = b :: chunks8 r.
Proof.
  intros Hb. unfold chunks8.
  rewrite length_app, Hb, range_step_8_succ. cbn [map].
  rewrite slice_block_head by assumption. rewrite map_map.
  apply (f_equal (cons b)). apply map_ext. intros i.
  now apply slice_block_tail.
Qed.

Lemma chunks8_concat (blocks : list pystr) :
  Forall (fun b => length b = 8) blocks -> chunks8 (concat blocks) = blocks.
Proof.
  induction 1 as [|b bl Hb _ IH]; [reflexivity|].
  cbn [concat]. rewrite chunks8_cons by assumption. now rewrite IH.
Qed.

(** A string of [8 * n] characters is [n] blocks of eight. *)
Lemma blocks_of_eight (n : nat) (s : pystr) :
  length s = 8 * n ->
  exists blocks,
    s = concat blocks /\ length blocks = n
    /\ Forall (fun b => length b = 8) blocks
    /\ (binary_string s -> Forall binary_string blocks).
Proof.
  revert s. induction n as [|n IH]; intros s Hs.
  - exists []. destruct s; [|discriminate]. repeat split; constructor.
  - destruct (IH (skipn 8 s)) as (bl & Hc & Hl & H8 & Hb).
    { rewrite length_skipn. lia. }
    exists (firstn 8 s :: bl). repeat split.
    + cbn [concat]. rewrite <- Hc. symmetry. apply firstn_skipn.
    + simpl. now rewrite Hl.
    + constructor; [|assumption]. rewrite length_firstn. lia.
    + intros Hbin. unfold binary_string in *.
      rewrite <- (firstn_skipn 8 s) in Hbin. apply Forall_app in Hbin.
      destruct Hbin as [Hf Hk]. constructor; auto.
Qed.

Lemma concat_length_eight (blocks : list pystr) :
  Forall (fun b => length b = 8) blocks ->
  length (concat blocks) = 8 * length blocks.
Proof.
  induction 1 as [|b bl Hb _ IH]; [reflexivity|].
  cbn [concat length]. rewrite length_app, IH, Hb. lia.
Qed.

Lemma flat_map_eight_bits_length (text : pystr) :
  length (flat_map eight_bits text) = 8 * length text.
Proof.
  rewrite flat_map_concat_map, concat_length_eight.
  - now rewrite length_map.
  - apply Forall_map, Forall_forall. intros c _. apply eight_bits_length.
Qed.

Lemma flat_map_eight_bits_binary (text : pystr) :
  binary_string (flat_map eight_bits text).
Proof.
  unfold binary_string. induction text as [|c text IH]; [constructor|].
  cbn [flat_map]. apply Forall_app. split; [apply eight_bits_binary|exact IH].
Qed.

(** Regrouping the bits of a text gives the text back. *)
Lemma regroup_eight_bits (text : pystr) :
  latin1 text -> regroup (flat_map eight_bits text) = text.
Proof.
  intros Hl. unfold regroup.
  rewrite flat_map_concat_map, chunks8_concat.
  - rewrite map_map. rewrite <- (map_id text) at 2.
    apply map_ext_in. intros c Hc. apply bits_value_eight_bits.
    unfold latin1 in Hl. rewrite Forall_forall in Hl. now apply Hl.
  - apply Forall_map, Forall_forall. intros c _. apply eight_bits_length.
Qed.

(** Regrouping [8 * n] binary digits gives [n] bytes, whose bits are those
    digits. *)
Lemma regroup_bytes (n : nat) (bits : pystr) :
  length bits = 8 * n -> binary_string bits ->
  length (regroup bits) = n
  /\ latin1 (regroup bits)
  /\ flat_map eight_bits (regroup bits) = bits.
Proof.
  intros Hlen Hbin.
  destruct (blocks_of_eight n bits Hlen) as (bl & Hc & Hl & H8 & Hb).
  specialize (Hb Hbin). unfold regroup. subst bits.
  rewrite chunks8_concat by assumption.
  assert (Hboth : Forall (fun b => eight_bits (bits_value b) = b
                                   /\ (bits_value b < 256)%N) bl).
  { rewrite Forall_forall in *. intros b Hin.
    apply eight_bits_bits_value; auto. }
  repeat split.
  - now rewrite length_map.
  - unfold latin1. apply Forall_map.
    eapply Forall_impl; [|exact Hboth]. now intros b [_ ?].
  - rewrite flat_map_concat_map, map_map. f_equal.
    rewrite <- (map_id bl) at 2. apply map_ext_in. intros b Hin.
    rewrite Forall_forall in Hboth. now apply Hboth.
Qed.

Lemma int2_from_binary (s : pystr) (a : N) :
  binary_string s ->
  int2_from a s = Ret (fold_left (fun acc c => (2 * acc + digit_value c)%N) s a).
Proof.
  unfold binary_string. intros Hs. revert a.
  induction Hs as [|c s Hc _ IH]; intros a; [reflexivity|].
  cbn [int2_from fold_left]. destruct Hc; subst c; cbn; apply IH.
Qed.

Lemma bits_value_bound (s : pystr) (a : N) :
  (fold_left (fun acc c => 2 * acc + digit_value c) s a
   < (a + 1) * 2 ^ N.of_nat (length s))%N.
Proof.
  revert a. induction s as [|c s IH]; intros a.
  - cbn. lia.
  - cbn [fold_left length]. rewrite Nat2N.inj_succ, N.pow_succ_r'.
    specialize (IH (2 * a + digit_value c)%N).
    assert (digit_value c <= 1)%N
      by (unfold digit_value; destruct (c =? char_1)%N; lia).
    nia.
Qed.

Lemma binary_string_slice (s : pystr) (i j : nat) :
  binary_string s -> binary_string (slice s i j).
Proof.
  unfold binary_string, slice. intros Hs.
  rewrite <- (firstn_skipn i s) in Hs. apply Forall_app in Hs.
  destruct Hs as [_ Hs].
  rewrite <- (firstn_skipn (j - i) (skipn i s)) in Hs.
  now apply Forall_app in Hs.
Qed.

Lemma range_step_8_in (n i : nat) : In i (range_step n 8) -> i < n.
Proof.
  unfold range_step. intros Hi. apply in_map_iff in Hi.
  destruct Hi as (j & <- & Hj). apply in_seq in Hj.
  pose proof (Nat.Div0.mul_div_le (n + (8 - 1)) 8). lia.
Qed.

(** On binary digits [binary_to_unicode] returns, and regroups. *)
Lemma binary_to_unicode_regroup (bits : pystr) :
  binary_string bits -> binary_to_unicode bits = Ret (regroup bits).
Proof.
  intros Hbin. unfold binary_to_unicode, regroup, chunks8.
  rewrite map_map. apply map_each_pure. intros i Hi.
  apply range_step_8_in in Hi.
  pose proof (binary_string_slice bits i (i + 8) Hbin) as Hsl.
  assert (Hlen : 0 < length (slice bits i (i + 8)) <= 8).
  { unfold slice. rewrite length_firstn, length_skipn. lia. }
  assert (Hint : int_base2 (slice bits i (i + 8))
                 = Ret (bits_value (slice bits i (i + 8)))).
  { unfold int_base2. destruct (slice bits i (i + 8)) eqn:E.
    - cbn in Hlen. lia.
    - exact (int2_from_binary _ 0%N Hsl). }
  rewrite Hint. cbn [bind]. unfold chr.
  pose proof (bits_value_bound (slice bits i (i + 8)) 0) as Hb.
  fold (bits_value (slice bits i (i + 8))) in Hb.
  assert (2 ^ N.of_nat (length (slice bits i (i + 8))) <= 2 ^ 8)%N
    by (apply N.pow_le_mono_r; lia).
  change (2 ^ 8)%N with 256%N in *.
  destruct (N.ltb_spec (bits_value (slice bits i (i + 8))) 1114112);
    [reflexivity|lia].
Qed.

(* ================================================================== *)
(** * The key-stretching loop *)

Lemma repeats_refl (key : pystr) : repeats key key.
Proof.
  split.
  - exists 1. lia.
  - intros i Hi. now rewrite Nat.mod_small.
Qed.

Lemma repeats_double (key k : pystr) : repeats key k -> repeats key (k ++ k).
Proof.
  intros [[m Hm] Hnth]. split.
  - exists (2 * m). rewrite length_app. lia.
  - intros i Hi. rewrite length_app in Hi.
    destruct (Nat.lt_ge_cases i (length k)) as [Hlt|Hge].
    + rewrite app_nth1 by assumption. now apply Hnth.
    + rewrite app_nth2 by assumption. rewrite Hnth by lia. f_equal.
      replace i with (i - length k + m * length key) at 2 by lia.
      now rewrite Nat.Div0.mod_add.
Qed.

(** With an empty key the loop never leaves. *)
Lemma stretch_key_empty (fuel n : nat) :
  0 < n -> stretch_key fuel [] n = OutOfFuel.
Proof.
  intros Hn. induction fuel as [|fuel IH]; cbn [stretch_key length app].
  - destruct (Nat.ltb_spec 0 n); [reflexivity|lia].
  - destruct (Nat.ltb_spec 0 n); [exact IH|lia].
Qed.

(** With a non-empty key every round adds at least one character, so [n]
    rounds are enough. *)
Lemma stretch_key_returns (key : pystr) (fuel : nat) (k : pystr) (n : nat) :
  k <> [] -> repeats key k -> n <= fuel + length k ->
  exists k', stretch_key fuel k n = Ret k' /\ repeats key k' /\ n <= length k'.
Proof.
  revert k. induction fuel as [|fuel IH]; intros k Hne Hrep Hn.
  - cbn [stretch_key]. destruct (Nat.ltb_spec (length k) n); [lia|].
    exists k. auto.
  - cbn [stretch_key]. destruct (Nat.ltb_spec (length k) n).
    + apply IH.
      * destruct k; [congruence|discriminate].
      * now apply repeats_double.
      * rewrite length_app. destruct k; [congruence|]. cbn [length] in *. lia.
    + exists k. auto.
Qed.

(* ================================================================== *)
(** * The XOR loop *)

Lemma int_char_binary (c : N) : binary_digit c -> int_char c = Ret (digit_value c).
Proof. intros [->| ->]; reflexivity. Qed.

Lemma str_lxor_digits (a b : N) :
  binary_digit a -> binary_digit b ->
  str_N (N.lxor (digit_value a) (digit_value b)) = [xor_digit a b].
Proof. intros [->| ->] [->| ->]; reflexivity. Qed.

Lemma xor_digit_binary (a b : N) : binary_digit (xor_digit a b).
Proof.
  unfold xor_digit, binary_digit.
  destruct (digit_value a =? digit_value b)%N; auto.
Qed.

Lemma xor_digit_twice (a k : N) :
  binary_digit a -> xor_digit (xor_digit a k) k = a.
Proof.
  intros [->| ->]; unfold xor_digit, digit_value;
    destruct (k =? char_1)%N; reflexivity.
Qed.

Lemma nth_binary (s : pystr) (i : nat) :
  binary_string s -> i < length s -> binary_digit (nth i s char_0).
Proof.
  unfold binary_string. intros Hs Hi. rewrite Forall_forall in Hs.
  apply Hs. now apply nth_In.
Qed.

Lemma xor_repeated_key_length (bits key : pystr) :
  length (xor_repeated_key bits key) = length bits.
Proof. unfold xor_repeated_key. now rewrite length_map, length_seq. Qed.

Lemma xor_repeated_key_binary (bits key : pystr) :
  binary_string (xor_repeated_key bits key).
Proof.
  unfold binary_string, xor_repeated_key. apply Forall_map, Forall_forall.
  intros i _. apply xor_digit_binary.
Qed.

(** XOR with the same key twice gives the bits back. *)
Lemma xor_repeated_key_twice (bits key : pystr) :
  binary_string bits ->
  xor_repeated_key (xor_repeated_key bits key) key = bits.
Proof.
  intros Hb. unfold xor_repeated_key at 1.
  rewrite xor_repeated_key_length.
  transitivity (map (fun i => nth i bits char_0) (seq 0 (length bits)));
    [|apply map_nth_seq].
  apply map_ext_in. intros i Hi. apply in_seq in Hi.
  unfold xor_repeated_key. rewrite nth_map_seq by lia.
  apply xor_digit_twice. apply nth_binary; [assumption|lia].
Qed.

(** The loop over [range(len(text))], once the key is long enough. *)
Lemma xor_loop (bits key k : pystr) :
  binary_string bits -> key <> [] -> binary_string key ->
  repeats key k -> length bits <= length k ->
  for_each (range (length bits)) (xor_step bits k) []
  = Ret (xor_repeated_key bits key).
Proof.
  intros Hbits Hne Hkey [_ Hnth] Hlen.
  rewrite for_each_appends
    with (g := fun i => [xor_digit (nth i bits char_0)
                                   (nth (i mod length key) key char_0)]).
  - cbn [app]. now rewrite flat_map_singleton.
  - intros i acc Hi. apply in_seq in Hi. unfold xor_step.
    assert (Hmod : i mod length key < length key).
    { apply Nat.mod_upper_bound. destruct key; [congruence|discriminate]. }
    rewrite (getitem_nth bits i char_0) by lia. cbn [bind].
    rewrite int_char_binary by (apply nth_binary; [assumption|lia]). cbn [bind].
    rewrite (getitem_nth k i char_0) by lia. cbn [bind].
    rewrite Hnth by lia.
    rewrite int_char_binary by (apply nth_binary; assumption). cbn [bind].
    rewrite str_lxor_digits; [reflexivity| |]; apply nth_binary; auto; lia.
Qed.

(* ================================================================== *)
(** * The cipher computes the repeated-key XOR *)

Lemma unicode_to_binary_latin1 (text : pystr) :
  latin1 text -> unicode_to_binary text = flat_map eight_bits text.
Proof.
  unfold latin1, unicode_to_binary. intros Hl.
  induction Hl as [|c text Hc _ IH]; [reflexivity|].
  cbn [flat_map]. now rewrite IH, format_08b_eight_bits.
Qed.

Lemma format_08b_binary (c : N) : binary_string (format_08b c).
Proof.
  unfold binary_string, format_08b. apply Forall_app. split.
  - apply Forall_forall. intros x Hx. apply repeat_spec in Hx. now left.
  - destruct c as [|p]; cbn [format_b].
    + constructor; [now left|constructor].
    + apply bin_pos_binary. constructor.
Qed.

Lemma unicode_to_binary_binary (text : pystr) :
  binary_string (unicode_to_binary text).
Proof.
  unfold binary_string, unicode_to_binary.
  induction text as [|c text IH]; [constructor|].
  cbn [flat_map]. apply Forall_app. split; [apply format_08b_binary|exact IH].
Qed.

(** The two functions have the same body. *)
Lemma decrypt_unfold (fuel : nat) (text key : pystr) :
  decrypt fuel text key = encrypt fuel text key.
Proof. reflexivity. Qed.

(** With a non-empty binary key and enough fuel, [encrypt] returns. *)
Lemma encrypt_returns (fuel : nat) (text key : pystr) :
  key <> [] -> binary_string key ->
  length (unicode_to_binary text) <= fuel ->
  encrypt fuel text key
  = Ret (regroup (xor_repeated_key (unicode_to_binary text) key)).
Proof.
  intros Hne Hkey Hfuel. unfold encrypt.
  set (bits := unicode_to_binary text) in *.
  assert (Hbin : binary_string bits) by apply unicode_to_binary_binary.
  destruct (stretch_key_returns key fuel key (length bits) Hne (repeats_refl key))
    as (k & Hk & Hrep & Hlong); [lia|].
  rewrite Hk. cbn [bind].
  rewrite (xor_loop bits key k) by assumption. cbn [bind].
  apply binary_to_unicode_regroup, xor_repeated_key_binary.
Qed.

Lemma encrypt_latin1 (fuel : nat) (text key : pystr) :
  latin1 text -> key <> [] -> binary_string key ->
  8 * length text <= fuel ->
  encrypt fuel text key = Ret (xor_cipher_spec text key).
Proof.
  intros Hl Hne Hkey Hfuel. unfold xor_cipher_spec.
  rewrite <- unicode_to_binary_latin1 by assumption.
  apply encrypt_returns; try assumption.
  rewrite unicode_to_binary_latin1, flat_map_eight_bits_length; assumption.
Qed.

(** The ciphertext of a byte text is a byte text of the same length, whose
    bits are the XOR-ed bits. *)
Lemma xor_cipher_spec_bytes (text key : pystr) :
  length (xor_cipher_spec text key) = length text
  /\ latin1 (xor_cipher_spec text key)
  /\ flat_map eight_bits (xor_cipher_spec text key)
     = xor_repeated_key (flat_map eight_bits text) key.
Proof.
  unfold xor_cipher_spec. apply regroup_bytes.
  - now rewrite xor_repeated_key_length, flat_map_eight_bits_length.
  - apply xor_repeated_key_binary.
Qed.

Lemma xor_cipher_spec_twice (text key : pystr) :
  latin1 text -> xor_cipher_spec (xor_cipher_spec text key) key = text.
Proof.
  intros Hl.
  destruct (xor_cipher_spec_bytes text key) as (_ & _ & Hbits).
  unfold xor_cipher_spec at 1. rewrite Hbits.
  rewrite xor_repeated_key_twice by apply flat_map_eight_bits_binary.
  now apply regroup_eight_bits.
Qed.

Lemma for_each_fuel_free {S : Type} (body : nat -> S -> outcome S) (l : list nat) :
  (forall i s, body i s <> OutOfFuel) ->
  forall s, for_each l body s <> OutOfFuel.
Proof.
  intros Hb. induction l as [|i l IH]; intros s; cbn [for_each]; [discriminate|].
  specialize (Hb i s). destruct (body i s); cbn [bind]; auto; discriminate.
Qed.

Lemma map_each_fuel_free {A B : Type} (f : A -> outcome B) (l : list A) :
  (forall x, f x <> OutOfFuel) -> map_each f l <> OutOfFuel.
Proof.
  intros Hf. induction l as [|x l IH]; cbn [map_each]; [discriminate|].
  specialize (Hf x). destruct (f x); cbn [bind]; try discriminate; auto.
  destruct (map_each f l); cbn [bind]; try discriminate; auto.
Qed.

Lemma xor_step_fuel_free (text key : pystr) (i : nat) (acc : pystr) :
  xor_step text key i acc <> OutOfFuel.
Proof.
  unfold xor_step, getitem, int_char.
  destruct (nth_error text i) as [t|]; cbn [bind]; [|discriminate].
  destruct ((48 <=? t)%N && (t <=? 57)%N); cbn [bind]; [|discriminate].
  destruct (nth_error key i) as [k|]; cbn [bind]; [|discriminate].
  destruct ((48 <=? k)%N && (k <=? 57)%N); cbn [bind]; discriminate.
Qed.

Lemma binary_to_unicode_fuel_free (s : pystr) : binary_to_unicode s <> OutOfFuel.
Proof.
  unfold binary_to_unicode. apply map_each_fuel_free. intros i.
  unfold int_base2, chr.
  destruct (slice s i (i + 8)) as [|c r]; cbn [bind]; [discriminate|].
  generalize (c :: r) 0%N. intros l. induction l as [|x l IH]; intros a.
  - cbn. destruct (a <? 1114112)%N; discriminate.
  - cbn [int2_from]. destruct (bit_of_char x); [apply IH|discriminate].
Qed.

(* ================================================================== *)
(** * Properties of the cipher *)

(** C3. Round trip: for a text of code points 0..255 and a non-empty key of
    '0' / '1', encrypting returns a ciphertext, and decrypting that
    ciphertext with the same key returns the text (with fuel for the
    stretching loop: one unit per bit of text is enough). *)
Theorem cipher_round_trip (text key : pystr) (fuel1 fuel2 : nat) :
  latin1 text -> key <> [] -> binary_string key ->
  8 * length text <= fuel1 -> 8 * length text <= fuel2 ->
  exists ciphertext,
    encrypt fuel1 text key = Ret ciphertext
    /\ decrypt fuel2 ciphertext key = Ret text.
Proof.
  intros Hl Hne Hkey Hf1 Hf2.
  exists (xor_cipher_spec text key). split.
  - now apply encrypt_latin1.
  - destruct (xor_cipher_spec_bytes text key) as (Hlen & Hbytes & _).
    rewrite decrypt_unfold, encrypt_latin1; try assumption.
    + now rewrite xor_cipher_spec_twice.
    + now rewrite Hlen.
Qed.

Lemma cipher_round_trip_witness :
  exists ciphertext,
    encrypt 16 text_HI key_1010 = Ret ciphertext
    /\ decrypt 16 ciphertext key_1010 = Ret text_HI.
Proof.
  apply (cipher_round_trip text_HI key_1010 16 16).
  - byte_text.
  - discriminate.
  - binary_key.
  - apply le_n.
  - apply le_n.
Defined.

(** C7. [decrypt] is the same algorithm as [encrypt]: for every text and
    every non-empty key of '0' / '1', the two return the same string (given
    fuel for the stretching loop), which for a text of code points 0..255 is
    the binary-convert, repeated-key XOR, regroup transformation. *)
Theorem decrypt_same_as_encrypt (fuel : nat) (text key : pystr) :
  key <> [] -> binary_string key ->
  length (unicode_to_binary text) <= fuel ->
  exists result,
    encrypt fuel text key = Ret result
    /\ decrypt fuel text key = Ret result
    /\ (latin1 text -> result = xor_cipher_spec text key).
Proof.
  intros Hne Hkey Hfuel.
  exists (regroup (xor_repeated_key (unicode_to_binary text) key)).
  repeat split.
  - now apply encrypt_returns.
  - rewrite decrypt_unfold. now apply encrypt_returns.
  - intros Hl. unfold xor_cipher_spec.
    now rewrite unicode_to_binary_latin1.
Qed.

Lemma decrypt_same_as_encrypt_witness :
  exists result,
    encrypt 16 text_HI key_1010 = Ret result
    /\ decrypt 16 text_HI key_1010 = Ret result
    /\ (latin1 text_HI -> result = xor_cipher_spec text_HI key_1010).
Proof.
  apply (decrypt_same_as_encrypt 16 text_HI key_1010).
  - discriminate.
  - binary_key.
  - apply le_n.
Defined.

(** C10. Length preservation: for a text of code points 0..255 and a
    non-empty key of '0' / '1', the ciphertext returned by [encrypt] has as
    many characters as the text. *)
Theorem encrypt_preserves_length (fuel : nat) (text key : pystr) :
  latin1 text -> key <> [] -> binary_string key ->
  8 * length text <= fuel ->
  exists ciphertext,
    encrypt fuel text key = Ret ciphertext
    /\ length ciphertext = length text.
Proof.
  intros Hl Hne Hkey Hfuel. exists (xor_cipher_spec text key). split.
  - now apply encrypt_latin1.
  - apply xor_cipher_spec_bytes.
Qed.

Lemma encrypt_preserves_length_witness :
  exists ciphertext,
    encrypt 16 text_HI key_1010 = Ret ciphertext
    /\ length ciphertext = length text_HI.
Proof.
  apply (encrypt_preserves_length 16 text_HI key_1010).
  - byte_text.
  - discriminate.
  - binary_key.
  - apply le_n.
Defined.

Lemma unicode_to_binary_nonempty (text : pystr) :
  text <> [] -> 0 < length (unicode_to_binary text).
Proof.
  destruct text as [|c text]; [congruence|]. intros _.
  unfold unicode_to_binary. cbn [flat_map]. rewrite length_app.
  unfold format_08b. rewrite length_app.
  destruct c as [|p]; cbn [format_b length]; [lia|].
  rewrite bin_pos_length. destruct p; cbn [Pos.size_nat]; lia.
Qed.

(** C9. With an empty key and a non-empty text the stretching loop never
    ends: [encrypt] and [decrypt] run out of any fuel.  With a non-empty key
    the loop ends, within one round per bit of text. *)
Theorem empty_key_never_terminates (text key : pystr) :
  text <> [] ->
  (key = [] ->
   forall fuel, encrypt fuel text key = OutOfFuel
                /\ decrypt fuel text key = OutOfFuel)
  /\ (key <> [] ->
      forall fuel, length (unicode_to_binary text) <= fuel ->
                   encrypt fuel text key <> OutOfFuel
                   /\ decrypt fuel text key <> OutOfFuel).
Proof.
  intros Htext. split.
  - intros -> fuel. rewrite (decrypt_unfold fuel text []). unfold encrypt.
    rewrite stretch_key_empty by now apply unicode_to_binary_nonempty.
    split; reflexivity.
  - intros Hne fuel Hfuel. rewrite (decrypt_unfold fuel text key).
    assert (H : encrypt fuel text key <> OutOfFuel); [|now split].
    unfold encrypt.
    destruct (stretch_key_returns key fuel key
                (length (unicode_to_binary text)) Hne (repeats_refl key))
      as (k & Hk & _ & _); [lia|].
    rewrite Hk. cbn [bind].
    pose proof (for_each_fuel_free
                  (xor_step (unicode_to_binary text) k)
                  (range (length (unicode_to_binary text)))
                  (xor_step_fuel_free (unicode_to_binary text) k) []) as Hloop.
    destruct (for_each _ _ _) as [x| |]; cbn [bind];
      [apply binary_to_unicode_fuel_free|discriminate|congruence].
Qed.

Lemma empty_key_never_terminates_witness :
  (@nil N = [] ->
   forall fuel, encrypt fuel text_HI [] = OutOfFuel
                /\ decrypt fuel text_HI [] = OutOfFuel)
  /\ (@nil N <> [] ->
      forall fuel, length (unicode_to_binary text_HI) <= fuel ->
                   encrypt fuel text_HI [] <> OutOfFuel
                   /\ decrypt fuel text_HI [] <> OutOfFuel).
Proof.
  apply (empty_key_never_terminates text_HI []). discriminate.
Defined.

(** C8, as the code has it.  A code point above 255 is not cut down to
    eight bits: its conversion is its whole binary expansion, more than
    eight digits long, which reads back as the code point itself. *)
Theorem unicode_to_binary_out_of_range (c : N) :
  (255 < c)%N ->
  unicode_to_binary [c] = format_b c
  /\ 8 < length (unicode_to_binary [c])
  /\ int_base2 (unicode_to_binary [c]) = Ret c.
Proof.
  intros Hc.
  assert (Hfmt : unicode_to_binary [c] = format_08b c).
  { unfold unicode_to_binary. cbn [flat_map]. apply app_nil_r. }
  assert (Hlen : 8 < length (format_b c)).
  { destruct c as [|p]; [lia|]. cbn [format_b].
    rewrite bin_pos_length. cbn [length].
    destruct (size_nat_bounds p) as [_ Hup].
    destruct (Nat.lt_ge_cases 8 (Pos.size_nat p)) as [Hlt|Hge]; [lia|].
    assert (2 ^ N.of_nat (Pos.size_nat p) <= 2 ^ 8)%N
      by (apply N.pow_le_mono_r; lia).
    change (2 ^ 8)%N with 256%N in *. lia. }
  rewrite Hfmt. repeat split.
  - unfold format_08b. replace (8 - length (format_b c)) with 0 by lia.
    reflexivity.
  - unfold format_08b. rewrite length_app. lia.
  - apply int_base2_format_08b.
Qed.

Lemma unicode_to_binary_out_of_range_witness :
  unicode_to_binary [256%N] = format_b 256
  /\ 8 < length (unicode_to_binary [256%N])
  /\ int_base2 (unicode_to_binary [256%N]) = Ret 256%N.
Proof. apply (unicode_to_binary_out_of_range 256). reflexivity. Defined.

(** C8, as stated, fails: code point 256 is converted to the nine digits
    "100000000", not to the eight digits of [256 mod 256 = 0]. *)
Lemma unicode_to_binary_no_truncation :
  unicode_to_binary [256%N] = [49; 48; 48; 48; 48; 48; 48; 48; 48]%N
  /\ ~ (forall c, (255 < c)%N ->
                  unicode_to_binary [c] = unicode_to_binary [(c mod 256)%N])
  /\ ~ (forall c, (255 < c)%N ->
                  unicode_to_binary [c] = eight_bits (c mod 256)).
Proof.
  split; [reflexivity|].
  split; intros H; specialize (H 256%N eq_refl); discriminate H.
Qed.

(* ================================================================== *)
(** * Preparing and reading one qubit *)

Lemma Basis_eqb_eq (a b : Basis) : Basis_eqb a b = true <-> a = b.
Proof. destruct a, b; cbn; split; congruence. Qed.

Lemma Bit_eqb_refl (a : Bit) : Bit_eqb a a = true.
Proof. now destruct a. Qed.

Lemma bits_eqb_eq (a b : list Bit) : bits_eqb a b = true <-> a = b.
Proof.
  revert b. induction a as [|x a IH]; intros [|y b]; cbn; split;
    try congruence; try discriminate.
  - intros H. apply andb_prop in H. destruct H as [Hx Hab].
    apply IH in Hab. destruct x, y; try discriminate; now subst.
  - intros H. injection H as -> ->. rewrite Bit_eqb_refl. now apply IH.
Qed.

(** Matching bases: the probability of reading the encoded bit is one, and
    every draw reads it. *)
Lemma prob_matching_basis (basis : Basis) (bit : Bit) :
  (prob bit (apply_gate (basis_gates basis) (prepare basis bit)) == 1)%Q.
Proof. destruct basis, bit; reflexivity. Qed.

Lemma measurement_matching_basis (basis : Basis) (bit : Bit) (u : Q) :
  (0 <= u)%Q -> (u < 1)%Q -> measurement basis bit basis u = bit.
Proof.
  intros H0 H1. unfold measurement, measure_qubit.
  destruct u as [n d]. unfold Qle, Qlt in *. cbn in H0, H1.
  destruct basis, bit; cbn;
    unfold Qle_bool; cbn;
    match goal with
    | |- (if (?a <=? ?b)%Z then _ else _) = _ =>
        destruct (Z.leb_spec a b); try reflexivity; lia
    end.
Qed.

(* ================================================================== *)
(** * The circuit and its simulation *)

Lemma choices_length {A : Type} (draw : nat -> A) (k : nat) :
  length (choices draw k) = k.
Proof. unfold choices. now rewrite length_map, length_seq. Qed.

Lemma getitem_choices {A : Type} (draw : nat -> A) (k i : nat) :
  i < k -> getitem (choices draw k) i = Ret (draw i).
Proof.
  intros Hi. rewrite (getitem_nth (choices draw k) i (draw 0))
    by now rewrite choices_length.
  unfold choices. now rewrite nth_map_seq.
Qed.

Lemma getitem_range (n i : nat) : i < n -> getitem (range n) i = Ret i.
Proof.
  intros Hi. unfold range.
  rewrite (getitem_nth (seq 0 n) i 0) by now rewrite length_seq.
  now rewrite seq_nth.
Qed.

Lemma encoder_loop (rnd : Randomness) (n : nat) :
  for_each (range n)
           (encoder_step (choices (draw_key rnd) n) (choices (draw_bases_A rnd) n)
                         (range n)) []
  = Ret (flat_map (encoder_ops rnd) (seq 0 n)).
Proof.
  rewrite for_each_appends with (g := encoder_ops rnd); [reflexivity|].
  intros i acc Hi. apply in_seq in Hi. unfold encoder_step.
  rewrite !getitem_choices, getitem_range by lia. cbn [bind].
  now rewrite <- app_assoc.
Qed.

Lemma decoder_loop (rnd : Randomness) (n : nat) :
  for_each (range n) (decoder_step (choices (draw_bases_B rnd) n) (range n)) []
  = Ret (flat_map (decoder_ops rnd) (seq 0 n)).
Proof.
  rewrite for_each_appends with (g := decoder_ops rnd); [reflexivity|].
  intros i acc Hi. apply in_seq in Hi. unfold decoder_step.
  now rewrite getitem_choices, getitem_range by lia.
Qed.

Lemma bb84_circuit_built (rnd : Randomness) (n : nat) :
  0 < n ->
  bb84_circuit n (choices (draw_key rnd) n) (choices (draw_bases_A rnd) n)
               (choices (draw_bases_B rnd) n)
  = Ret (flat_map (encoder_ops rnd) (seq 0 n)
         ++ flat_map (decoder_ops rnd) (seq 0 n)
         ++ [Measure (range n) second_person_key]).
Proof.
  intros Hn. unfold bb84_circuit.
  rewrite encoder_loop, decoder_loop. cbn [bind].
  destruct n as [|n]; [lia|]. reflexivity.
Qed.

Lemma register_fold (u : nat -> Q) (c : circuit) (s : sim_state) (q : nat) :
  register (fold_left (sim_step u) c s) q = gates_on c q (register s q).
Proof.
  revert s. induction c as [|op c IH]; intros s; [reflexivity|].
  cbn [fold_left]. rewrite IH. unfold gates_on. cbn [fold_left].
  destruct op as [g q'|qs key]; cbn [sim_step register]; [|reflexivity].
  unfold update. reflexivity.
Qed.

Lemma measurements_fold (u : nat -> Q) (c : circuit) (s : sim_state) :
  forallb is_gate c = true ->
  measurements (fold_left (sim_step u) c s) = measurements s.
Proof.
  revert s. induction c as [|op c IH]; intros s Hc; [reflexivity|].
  cbn [forallb] in Hc. apply andb_prop in Hc. destruct Hc as [Hop Hc].
  cbn [fold_left]. rewrite IH by assumption.
  destruct op; [reflexivity|discriminate].
Qed.

Lemma forallb_flat_map {A B : Type} (p : B -> bool) (g : A -> list B) (l : list A) :
  (forall x, forallb p (g x) = true) -> forallb p (flat_map g l) = true.
Proof.
  intros Hg. induction l as [|x l IH]; [reflexivity|].
  cbn [flat_map]. now rewrite forallb_app, Hg, IH.
Qed.

Lemma gates_on_app (c1 c2 : circuit) (q : nat) (st : qstate) :
  gates_on (c1 ++ c2) q st = gates_on c2 q (gates_on c1 q st).
Proof. unfold gates_on. apply fold_left_app. Qed.

(** A loop that appends, for each qubit [i] in turn, operations that act as
    [h i] on qubit [i] and leave the others alone. *)
Lemma gates_on_flat_map (g : nat -> circuit) (h : nat -> qstate -> qstate) :
  (forall i q st, gates_on (g i) q st = if Nat.eqb q i then h i st else st) ->
  forall n a q st,
    gates_on (flat_map g (seq a n)) q st
    = if (a <=? q) && (q <? a + n) then h q st else st.
Proof.
  intros Hg. induction n as [|n IH]; intros a q st.
  - cbn [seq flat_map]. unfold gates_on. cbn [fold_left].
    destruct (Nat.leb_spec a q), (Nat.ltb_spec q (a + 0)); cbn; auto; lia.
  - cbn [seq flat_map]. rewrite gates_on_app, IH, Hg.
    destruct (Nat.eqb_spec q a) as [->|Hne].
    + destruct (Nat.leb_spec (S a) a), (Nat.ltb_spec a (S a + n)),
        (Nat.leb_spec a a), (Nat.ltb_spec a (a + S n)); cbn; auto; lia.
    + destruct (Nat.leb_spec (S a) q), (Nat.ltb_spec q (S a + n)),
        (Nat.leb_spec a q), (Nat.ltb_spec q (a + S n)); cbn; auto; lia.
Qed.

Lemma gates_on_encoder_ops (rnd : Randomness) (i q : nat) (st : qstate) :
  gates_on (encoder_ops rnd i) q st
  = if Nat.eqb q i
    then apply_gate (basis_gates (draw_bases_A rnd i))
                    (apply_gate (encode_gates (draw_key rnd i)) st)
    else st.
Proof.
  unfold gates_on, encoder_ops. cbn [fold_left].
  now destruct (Nat.eqb q i).
Qed.

Lemma gates_on_decoder_ops (rnd : Randomness) (i q : nat) (st : qstate) :
  gates_on (decoder_ops rnd i) q st
  = if Nat.eqb q i
    then apply_gate (basis_gates (draw_bases_B rnd i)) st
    else st.
Proof. reflexivity. Qed.

Lemma simulation_reads (rnd : Randomness) (n : nat) :
  lookup_measurement
    (measurements
       (sim_run (draw_unit rnd)
                (flat_map (encoder_ops rnd) (seq 0 n)
                 ++ flat_map (decoder_ops rnd) (seq 0 n)
                 ++ [Measure (range n) second_person_key])))
    second_person_key
  = Ret (decoder_key_of rnd n).
Proof.
  unfold sim_run. rewrite app_assoc, fold_left_app. cbn [fold_left sim_step measurements].
  rewrite measurements_fold.
  2:{ rewrite forallb_app. rewrite !forallb_flat_map; auto. }
  cbn [measurements app lookup_measurement].
  change (String.eqb second_person_key second_person_key) with true. cbv iota.
  f_equal. unfold decoder_key_of, range. apply map_ext_in. intros q Hq.
  apply in_seq in Hq. f_equal.
  rewrite register_fold, gates_on_app. cbn [register].
  rewrite (gates_on_flat_map (encoder_ops rnd)
             (fun i st => apply_gate (basis_gates (draw_bases_A rnd i))
                            (apply_gate (encode_gates (draw_key rnd i)) st)))
    by apply gates_on_encoder_ops.
  rewrite (gates_on_flat_map (decoder_ops rnd)
             (fun i st => apply_gate (basis_gates (draw_bases_B rnd i)) st))
    by apply gates_on_decoder_ops.
  destruct (Nat.leb_spec 0 q), (Nat.ltb_spec q (0 + n)); cbn [andb]; try lia.
  reflexivity.
Qed.

(* ================================================================== *)
(** * Sifting *)

Lemma sift_result (n : nat) (encoder_bases decoder_bases : list Basis)
      (encoder_key decoder_key : list Bit) :
  n <= length encoder_bases -> n <= length decoder_bases ->
  n <= length encoder_key -> n <= length decoder_key ->
  sift n encoder_bases decoder_bases encoder_key decoder_key
  = Ret (map (fun i => nth i encoder_key Zero)
             (kept_positions n encoder_bases decoder_bases),
         map (fun i => nth i decoder_key Zero)
             (kept_positions n encoder_bases decoder_bases)).
Proof.
  unfold sift, kept_positions, range.
  induction n as [|n IH]; intros HA HB HK HD; [reflexivity|].
  rewrite seq_S, for_each_app, IH by lia. cbn [bind Nat.add for_each].
  rewrite filter_app, !map_app. cbn [filter].
  unfold sift_step.
  rewrite (getitem_nth encoder_bases n BasisZ), (getitem_nth decoder_bases n BasisZ)
    by lia.
  cbn [bind].
  destruct (Basis_eqb (nth n encoder_bases BasisZ) (nth n decoder_bases BasisZ)).
  - rewrite (getitem_nth encoder_key n Zero), (getitem_nth decoder_key n Zero) by lia.
    reflexivity.
  - cbn [bind map fst snd]. now rewrite !app_nil_r.
Qed.

Lemma kept_positions_in (n : nat) (encoder_bases decoder_bases : list Basis) (i : nat) :
  length encoder_bases = n -> length decoder_bases = n ->
  In i (kept_positions n encoder_bases decoder_bases)
  <-> i < n /\ nth_error encoder_bases i = nth_error decoder_bases i.
Proof.
  intros HA HB. unfold kept_positions. rewrite filter_In, in_seq, Basis_eqb_eq.
  split.
  - intros [Hi Heq]. split; [lia|].
    rewrite (nth_error_nth' encoder_bases BasisZ), (nth_error_nth' decoder_bases BasisZ)
      by lia.
    now rewrite Heq.
  - intros [Hi Heq]. split; [lia|].
    rewrite (nth_error_nth' encoder_bases BasisZ), (nth_error_nth' decoder_bases BasisZ)
      in Heq by lia.
    congruence.
Qed.

Lemma seq_ascending (n a : nat) : StronglySorted lt (seq a n).
Proof.
  revert a. induction n as [|n IH]; intros a; cbn [seq]; constructor.
  - apply IH.
  - apply Forall_forall. intros x Hx. apply in_seq in Hx. lia.
Qed.

Lemma filter_ascending (f : nat -> bool) (l : list nat) :
  StronglySorted lt l -> StronglySorted lt (filter f l).
Proof.
  induction 1 as [|x l Hl IH Hx]; cbn [filter]; [constructor|].
  destruct (f x); [|exact IH]. constructor; [exact IH|].
  rewrite Forall_forall in *. intros y Hy. apply filter_In in Hy. now apply Hx.
Qed.

Lemma kept_positions_length (n : nat) (encoder_bases decoder_bases : list Basis) :
  length (kept_positions n encoder_bases decoder_bases) <= n.
Proof.
  unfold kept_positions.
  etransitivity; [apply filter_length_le|]. now rewrite length_seq.
Qed.

(** C5. Sifting: the loop visits the positions [0 .. num_bits - 1] in
    ascending order and keeps exactly those where the two bases are equal;
    the two sifted sequences have the same length, and their [j]-th elements
    are the two parties' bits of one and the same original position. *)
Theorem sifting_correct (num_bits : nat) (encoder_bases decoder_bases : list Basis)
        (encoder_key decoder_key : list Bit) :
  length encoder_bases = num_bits -> length decoder_bases = num_bits ->
  length encoder_key = num_bits -> length decoder_key = num_bits ->
  exists final_encoder_key final_decoder_key,
    sift num_bits encoder_bases decoder_bases encoder_key decoder_key
    = Ret (final_encoder_key, final_decoder_key)
    /\ length final_encoder_key = length final_decoder_key
    /\ let kept := kept_positions num_bits encoder_bases decoder_bases in
       (forall i, In i kept
                  <-> i < num_bits
                      /\ nth_error encoder_bases i = nth_error decoder_bases i)
       /\ StronglySorted lt kept
       /\ length final_encoder_key = length kept
       /\ forall j p,
           nth_error kept j = Some p ->
           nth_error final_encoder_key j = nth_error encoder_key p
           /\ nth_error final_decoder_key j = nth_error decoder_key p.
Proof.
  intros HA HB HK HD.
  eexists. eexists. split; [apply sift_result; lia|].
  split; [now rewrite !length_map|].
  cbn zeta. split; [|split; [|split]].
  - intros i. now apply kept_positions_in.
  - apply filter_ascending, seq_ascending.
  - now rewrite length_map.
  - intros j p Hj.
    assert (Hp : p < num_bits).
    { apply nth_error_In in Hj.
      apply (kept_positions_in num_bits encoder_bases decoder_bases p HA HB) in Hj.
      tauto. }
    rewrite !nth_error_map, Hj. cbn [option_map].
    now rewrite (nth_error_nth' encoder_key Zero), (nth_error_nth' decoder_key Zero)
      by lia.
Qed.

Lemma sifting_correct_witness :
  exists final_encoder_key final_decoder_key,
    sift 3 [BasisZ; BasisX; BasisX] [BasisZ; BasisZ; BasisX]
         [One; One; Zero] [One; Zero; Zero]
    = Ret (final_encoder_key, final_decoder_key)
    /\ length final_encoder_key = length final_decoder_key
    /\ let kept := kept_positions 3 [BasisZ; BasisX; BasisX] [BasisZ; BasisZ; BasisX] in
       (forall i, In i kept
                  <-> i < 3
                      /\ nth_error [BasisZ; BasisX; BasisX] i
                         = nth_error [BasisZ; BasisZ; BasisX] i)
       /\ StronglySorted lt kept
       /\ length final_encoder_key = length kept
       /\ forall j p,
           nth_error kept j = Some p ->
           nth_error final_encoder_key j = nth_error [One; One; Zero] p
           /\ nth_error final_decoder_key j = nth_error [One; Zero; Zero] p.
Proof.
  apply (sifting_correct 3 [BasisZ; BasisX; BasisX] [BasisZ; BasisZ; BasisX]
                         [One; One; Zero] [One; Zero; Zero]);
    reflexivity.
Defined.

(* ================================================================== *)
(** * Measurement on matching bases *)

Lemma rnd_all_Z_unit_draws : unit_draws rnd_all_Z.
Proof. intros q. split; reflexivity || discriminate. Qed.

Lemma rnd_one_match_unit_draws : unit_draws rnd_one_match.
Proof. intros q. split; reflexivity || discriminate. Qed.

Lemma decoder_key_of_length (rnd : Randomness) (n : nat) :
  length (decoder_key_of rnd n) = n.
Proof. unfold decoder_key_of. now rewrite length_map, length_seq. Qed.

Lemma decoder_key_of_nth (rnd : Randomness) (n q : nat) :
  q < n ->
  nth q (decoder_key_of rnd n) Zero
  = measurement (draw_bases_A rnd q) (draw_key rnd q)
                (draw_bases_B rnd q) (draw_unit rnd q).
Proof. intros Hq. unfold decoder_key_of. now rewrite nth_map_seq. Qed.

(** C1. Measurement is deterministic on a basis match: the qubit prepared as
    [(basis, bit)] and measured in [basis] is read as [bit] with probability
    one, whatever the draw; and in the simulated circuit every qubit whose
    two bases agree is read as its own encoded bit. *)
Theorem measurement_deterministic_on_match (rnd : Randomness) (num_bits : nat) :
  unit_draws rnd -> 0 < num_bits ->
  (forall basis bit,
      (prob bit (apply_gate (basis_gates basis) (prepare basis bit)) == 1)%Q)
  /\ (forall basis bit u,
         (0 <= u)%Q -> (u < 1)%Q -> measurement basis bit basis u = bit)
  /\ exists bb84 decoder_key,
      bb84_circuit num_bits (choices (draw_key rnd) num_bits)
                   (choices (draw_bases_A rnd) num_bits)
                   (choices (draw_bases_B rnd) num_bits)
      = Ret bb84
      /\ lookup_measurement (measurements (sim_run (draw_unit rnd) bb84))
                            second_person_key
         = Ret decoder_key
      /\ length decoder_key = num_bits
      /\ forall q,
          q < num_bits ->
          draw_bases_B rnd q = draw_bases_A rnd q ->
          nth_error decoder_key q = Some (draw_key rnd q).
Proof.
  intros Hu Hn. split; [|split].
  - apply prob_matching_basis.
  - apply measurement_matching_basis.
  - eexists. exists (decoder_key_of rnd num_bits).
    split; [now apply bb84_circuit_built|].
    split; [apply simulation_reads|].
    split; [apply decoder_key_of_length|].
    intros q Hq Hb.
    rewrite (nth_error_nth' _ Zero) by now rewrite decoder_key_of_length.
    rewrite decoder_key_of_nth by assumption. rewrite Hb. f_equal.
    apply measurement_matching_basis; apply Hu.
Qed.

Lemma measurement_deterministic_on_match_witness :
  (forall basis bit,
      (prob bit (apply_gate (basis_gates basis) (prepare basis bit)) == 1)%Q)
  /\ (forall basis bit u,
         (0 <= u)%Q -> (u < 1)%Q -> measurement basis bit basis u = bit)
  /\ exists bb84 decoder_key,
      bb84_circuit 4 (choices (draw_key rnd_one_match) 4)
                   (choices (draw_bases_A rnd_one_match) 4)
                   (choices (draw_bases_B rnd_one_match) 4)
      = Ret bb84
      /\ lookup_measurement (measurements (sim_run (draw_unit rnd_one_match) bb84))
                            second_person_key
         = Ret decoder_key
      /\ length decoder_key = 4
      /\ forall q,
          q < 4 ->
          draw_bases_B rnd_one_match q = draw_bases_A rnd_one_match q ->
          nth_error decoder_key q = Some (draw_key rnd_one_match q).
Proof.
  apply (measurement_deterministic_on_match rnd_one_match 4).
  - intros q. split; reflexivity || discriminate.
  - apply Nat.lt_0_succ.
Defined.

(* ================================================================== *)
(** * The eavesdropper check *)

Lemma flat_map_str_bit_length (l : list Bit) :
  length (flat_map str_bit l) = length l.
Proof. induction l as [|b l IH]; [reflexivity|]. destruct b; cbn; now rewrite IH. Qed.

Lemma flat_map_str_bit_binary (l : list Bit) : binary_string (flat_map str_bit l).
Proof.
  unfold binary_string, binary_digit.
  induction l as [|b l IH]; [constructor|]. destruct b; cbn; constructor; auto.
Qed.

Lemma flat_map_str_bit_not_msg (l : list Bit) :
  flat_map str_bit l <> eavesdropper_msg.
Proof. destruct l as [|[] l]; discriminate. Qed.

Lemma slice_from_0 {A : Type} (l : list A) (n : nat) : slice l 0 n = firstn n l.
Proof. unfold slice. now rewrite Nat.sub_0_r. Qed.

Lemma int_half_floor (n : nat) : 2 * int_half n <= n < 2 * int_half n + 2.
Proof.
  unfold int_half. pose proof (Nat.div_mod_eq n 2).
  pose proof (Nat.mod_upper_bound n 2). lia.
Qed.

(** On identical sequences the check succeeds and the suffix is returned. *)
Lemma convert_half_identical (a : list Bit) :
  convert_half a a = flat_map str_bit (skipn (int_half (length a)) a).
Proof.
  unfold convert_half. now rewrite (proj2 (bits_eqb_eq _ _) eq_refl).
Qed.

(** C4. The eavesdropper check on two sifted sequences of equal length [L]:
    the compared prefix has [floor (L / 2)] elements; the check succeeds
    exactly when the two prefixes are equal; on identical sequences it
    succeeds and the key is the remaining suffix of the encoder's sequence,
    [L - floor (L / 2)] characters long; for [L = 0] the key is empty. *)
Theorem eavesdropper_check (final_encoder_key final_decoder_key : list Bit) :
  length final_encoder_key = length final_decoder_key ->
  let L := length final_encoder_key in
  let prefixLen := int_half L in
  2 * prefixLen <= L < 2 * prefixLen + 2
  /\ (convert_half final_encoder_key final_decoder_key <> eavesdropper_msg
      <-> firstn prefixLen final_encoder_key = firstn prefixLen final_decoder_key)
  /\ (final_encoder_key = final_decoder_key ->
      convert_half final_encoder_key final_decoder_key
      = flat_map str_bit (skipn prefixLen final_encoder_key)
      /\ length (convert_half final_encoder_key final_decoder_key) = L - prefixLen
      /\ convert_half final_encoder_key final_decoder_key <> eavesdropper_msg)
  /\ (L = 0 -> convert_half final_encoder_key final_decoder_key = []).
Proof.
  intros Hlen L prefixLen.
  assert (Hsame : final_encoder_key = final_decoder_key ->
                  convert_half final_encoder_key final_decoder_key
                  = flat_map str_bit (skipn prefixLen final_encoder_key)).
  { intros <-. apply convert_half_identical. }
  split; [apply int_half_floor|]. split; [|split].
  - unfold convert_half. fold L. fold prefixLen. rewrite !slice_from_0.
    destruct (bits_eqb (firstn prefixLen final_encoder_key)
                       (firstn prefixLen final_decoder_key)) eqn:E.
    + apply bits_eqb_eq in E. split; [auto|].
      intros _. apply flat_map_str_bit_not_msg.
    + split; [congruence|].
      intros Heq. apply bits_eqb_eq in Heq. congruence.
  - intros Heq. rewrite (Hsame Heq). repeat split.
    + rewrite flat_map_str_bit_length, length_skipn. reflexivity.
    + apply flat_map_str_bit_not_msg.
  - intros HL. subst L. destruct final_encoder_key; [|discriminate].
    destruct final_decoder_key; [|discriminate]. reflexivity.
Qed.

Lemma eavesdropper_check_witness :
  let L := length [One; Zero; One] in
  let prefixLen := int_half L in
  2 * prefixLen <= L < 2 * prefixLen + 2
  /\ (convert_half [One; Zero; One] [One; Zero; One] <> eavesdropper_msg
      <-> firstn prefixLen [One; Zero; One] = firstn prefixLen [One; Zero; One])
  /\ ([One; Zero; One] = [One; Zero; One] ->
      convert_half [One; Zero; One] [One; Zero; One]
      = flat_map str_bit (skipn prefixLen [One; Zero; One])
      /\ length (convert_half [One; Zero; One] [One; Zero; One]) = L - prefixLen
      /\ convert_half [One; Zero; One] [One; Zero; One] <> eavesdropper_msg)
  /\ (L = 0 -> convert_half [One; Zero; One] [One; Zero; One] = []).
Proof.
  apply (eavesdropper_check [One; Zero; One] [One; Zero; One]). reflexivity.
Defined.

(* ================================================================== *)
(** * The whole key generator *)

Lemma gen_bin_key_runs (min_key_length : Z) (rnd : Randomness) :
  (1 <= min_key_length)%Z ->
  let num_bits := Z.to_nat (min_key_length * 4) in
  sift num_bits (choices (draw_bases_A rnd) num_bits) (choices (draw_bases_B rnd) num_bits)
       (choices (draw_key rnd) num_bits) (decoder_key_of rnd num_bits)
  = Ret (sifted_A rnd num_bits, sifted_B rnd num_bits)
  /\ gen_bin_key min_key_length rnd
     = Ret (convert_half (sifted_A rnd num_bits) (sifted_B rnd num_bits)).
Proof.
  intros Hm num_bits.
  assert (Hsift :
    sift num_bits (choices (draw_bases_A rnd) num_bits)
         (choices (draw_bases_B rnd) num_bits)
         (choices (draw_key rnd) num_bits) (decoder_key_of rnd num_bits)
    = Ret (sifted_A rnd num_bits, sifted_B rnd num_bits)).
  { apply sift_result;
      rewrite ?choices_length, ?decoder_key_of_length; apply le_n. }
  split; [exact Hsift|].
  unfold gen_bin_key. fold num_bits.
  rewrite bb84_circuit_built by (subst num_bits; lia). cbn [bind].
  rewrite simulation_reads. cbn [bind].
  rewrite Hsift. reflexivity.
Qed.

(** With proper draws the two sifted sequences are the same. *)
Lemma sifted_agree (rnd : Randomness) (n : nat) :
  unit_draws rnd -> sifted_B rnd n = sifted_A rnd n.
Proof.
  intros Hu. unfold sifted_A, sifted_B. apply map_ext_in. intros i Hi.
  unfold kept_positions in Hi. apply filter_In in Hi. destruct Hi as [Hi Hb].
  apply in_seq in Hi. apply Basis_eqb_eq in Hb.
  unfold choices in Hb. rewrite !nth_map_seq in Hb by lia.
  rewrite decoder_key_of_nth by lia.
  unfold choices. rewrite nth_map_seq by lia. rewrite <- Hb.
  apply measurement_matching_basis; apply Hu.
Qed.

(** C2. The abort branch is unreachable: for [min_key_length >= 1] and
    proper draws, [gen_bin_key] returns, and what it returns is not the
    eavesdropper message. *)
Theorem abort_unreachable (min_key_length : Z) (rnd : Randomness) :
  (1 <= min_key_length)%Z -> unit_draws rnd ->
  exists key,
    gen_bin_key min_key_length rnd = Ret key
    /\ key <> eavesdropper_msg.
Proof.
  intros Hm Hu.
  destruct (gen_bin_key_runs min_key_length rnd Hm) as [_ Hrun].
  eexists. split; [exact Hrun|].
  rewrite sifted_agree, convert_half_identical by assumption.
  apply flat_map_str_bit_not_msg.
Qed.

Lemma abort_unreachable_witness :
  exists key,
    gen_bin_key 1 rnd_one_match = Ret key
    /\ key <> eavesdropper_msg.
Proof.
  apply (abort_unreachable 1 rnd_one_match).
  - discriminate.
  - intros q. split; reflexivity || discriminate.
Defined.

(** C6, as the code has it.  [gen_bin_key] works on
    [num_bits = min_key_length * 4] qubits.  With [L] the sifted length, the
    key it returns on success is a string of '0' / '1' of [L - floor (L / 2)]
    characters: at most [L] (less than [L] once [L >= 2]), where [L] is at
    most [num_bits]; and at most half of [num_bits], so strictly less than
    [num_bits]. *)
Theorem key_sizing (min_key_length : Z) (rnd : Randomness) :
  (1 <= min_key_length)%Z ->
  let num_bits := Z.to_nat (min_key_length * 4) in
  let L := length (sifted_A rnd num_bits) in
  exists result,
    gen_bin_key min_key_length rnd = Ret result
    /\ sift num_bits (choices (draw_bases_A rnd) num_bits)
            (choices (draw_bases_B rnd) num_bits)
            (choices (draw_key rnd) num_bits) (decoder_key_of rnd num_bits)
       = Ret (sifted_A rnd num_bits, sifted_B rnd num_bits)
    /\ (unit_draws rnd -> result <> eavesdropper_msg)
    /\ (result <> eavesdropper_msg ->
        binary_string result
        /\ length result = L - int_half L
        /\ length result <= L
        /\ (2 <= L -> length result < L)
        /\ L <= num_bits
        /\ 2 * length result <= num_bits
        /\ length result < num_bits).
Proof.
  intros Hm num_bits L.
  destruct (gen_bin_key_runs min_key_length rnd Hm) as [Hsift Hrun].
  fold num_bits in Hsift, Hrun.
  eexists. split; [exact Hrun|]. split; [exact Hsift|]. split.
  - intros Hu. rewrite sifted_agree, convert_half_identical by assumption.
    apply flat_map_str_bit_not_msg.
  - intros Hok. unfold convert_half in *. fold L in Hok |- *.
    destruct (bits_eqb _ _); [|congruence].
    assert (HL : L <= num_bits).
    { subst L. unfold sifted_A. rewrite length_map. apply kept_positions_length. }
    assert (Hlen : length (flat_map str_bit (skipn (int_half L) (sifted_A rnd num_bits)))
                   = L - int_half L).
    { rewrite flat_map_str_bit_length, length_skipn. reflexivity. }
    pose proof (int_half_floor L) as Hhalf.
    assert (Hn : num_bits = 4 * Z.to_nat min_key_length) by (subst num_bits; lia).
    assert (0 < Z.to_nat min_key_length) by lia.
    split; [apply flat_map_str_bit_binary|].
    rewrite Hlen. repeat split; lia.
Qed.

Lemma key_sizing_witness :
  let num_bits := Z.to_nat (1 * 4) in
  let L := length (sifted_A rnd_one_match num_bits) in
  exists result,
    gen_bin_key 1 rnd_one_match = Ret result
    /\ sift num_bits (choices (draw_bases_A rnd_one_match) num_bits)
            (choices (draw_bases_B rnd_one_match) num_bits)
            (choices (draw_key rnd_one_match) num_bits)
            (decoder_key_of rnd_one_match num_bits)
       = Ret (sifted_A rnd_one_match num_bits, sifted_B rnd_one_match num_bits)
    /\ (unit_draws rnd_one_match -> result <> eavesdropper_msg)
    /\ (result <> eavesdropper_msg ->
        binary_string result
        /\ length result = L - int_half L
        /\ length result <= L
        /\ (2 <= L -> length result < L)
        /\ L <= num_bits
        /\ 2 * length result <= num_bits
        /\ length result < num_bits).
Proof. apply (key_sizing 1 rnd_one_match). discriminate. Defined.

(** C6, as stated, fails.  When every basis matches, the sifted length is
    [num_bits] itself, not less; when a single basis matches, the key is as
    long as the sifted sequence, not shorter. *)
Lemma key_sizing_not_strict :
  ~ (forall min_key_length rnd key,
        (1 <= min_key_length)%Z -> unit_draws rnd ->
        gen_bin_key min_key_length rnd = Ret key ->
        key <> eavesdropper_msg ->
        length (sifted_A rnd (Z.to_nat (min_key_length * 4)))
        < Z.to_nat (min_key_length * 4))
  /\ ~ (forall min_key_length rnd key,
           (1 <= min_key_length)%Z -> unit_draws rnd ->
           gen_bin_key min_key_length rnd = Ret key ->
           key <> eavesdropper_msg ->
           length key < length (sifted_A rnd (Z.to_nat (min_key_length * 4)))).
Proof.
  split; intros H.
  - specialize (H 1%Z rnd_all_Z [char_1; char_1]).
    assert (Hlt : 4 < 4); [|lia].
    apply H;
      [discriminate | apply rnd_all_Z_unit_draws
       | vm_compute; reflexivity | discriminate].
  - specialize (H 1%Z rnd_one_match [char_1]).
    assert (Hlt : 1 < 1); [|lia].
    apply H;
      [discriminate | apply rnd_one_match_unit_draws
       | vm_compute; reflexivity | discriminate].
Qed.

(* ================================================================== *)
(** * The two conversions, further *)

Lemma format_08b_length_ge (c : N) : 8 <= length (format_08b c).
Proof. unfold format_08b. rewrite length_app, repeat_length. lia. Qed.

Lemma format_b_length_gt (c : N) : (255 < c)%N -> 8 < length (format_b c).
Proof.
  intros Hc. destruct c as [|p]; [lia|]. cbn [format_b].
  rewrite bin_pos_length. cbn [length].
  destruct (size_nat_bounds p) as [_ Hup].
  destruct (Nat.lt_ge_cases 8 (Pos.size_nat p)) as [Hlt|Hge]; [lia|].
  assert (2 ^ N.of_nat (Pos.size_nat p) <= 2 ^ 8)%N
    by (apply N.pow_le_mono_r; lia).
  change (2 ^ 8)%N with 256%N in *. lia.
Qed.

Lemma format_08b_length_gt (c : N) : (255 < c)%N -> 8 < length (format_08b c).
Proof.
  intros Hc. unfold format_08b. rewrite length_app.
  pose proof (format_b_length_gt c Hc). lia.
Qed.

Lemma unicode_to_binary_length_ge (text : pystr) :
  8 * length text <= length (unicode_to_binary text).
Proof.
  unfold unicode_to_binary. induction text as [|c text IH]; [apply le_n|].
  cbn [flat_map length]. rewrite length_app.
  pose proof (format_08b_length_ge c). lia.
Qed.

Lemma unicode_to_binary_length_gt (text : pystr) :
  Exists (fun c => (255 < c)%N) text ->
  8 * length text < length (unicode_to_binary text).
Proof.
  unfold unicode_to_binary. induction 1 as [c text Hc|c text _ IH];
    cbn [flat_map length]; rewrite length_app.
  - pose proof (format_08b_length_gt c Hc).
    pose proof (unicode_to_binary_length_ge text) as Hge.
    unfold unicode_to_binary in Hge. lia.
  - pose proof (format_08b_length_ge c). lia.
Qed.

Lemma not_latin1_exists (text : pystr) :
  ~ latin1 text -> Exists (fun c => (255 < c)%N) text.
Proof.
  unfold latin1. intros Hn. induction text as [|c text IH].
  - destruct Hn. constructor.
  - destruct (N.ltb_spec c 256) as [Hlt|Hge].
    + apply Exists_cons_tl. apply IH. intros Hl. apply Hn. now constructor.
    + apply Exists_cons_hd. lia.
Qed.

Lemma latin1_or_not (text : pystr) : latin1 text \/ ~ latin1 text.
Proof.
  unfold latin1. induction text as [|c text [IH|IH]].
  - left. constructor.
  - destruct (N.ltb_spec c 256) as [Hlt|Hge].
    + left. now constructor.
    + right. intros H. inversion H; subst. lia.
  - right. intros H. inversion H; subst. contradiction.
Qed.

(** X1. Converting a text of code points 0..255 to binary and back returns
    the text. *)
Theorem binary_to_unicode_inverts (text : pystr) :
  latin1 text -> binary_to_unicode (unicode_to_binary text) = Ret text.
Proof.
  intros Hl. rewrite unicode_to_binary_latin1 by assumption.
  rewrite binary_to_unicode_regroup by apply flat_map_eight_bits_binary.
  now rewrite regroup_eight_bits.
Qed.

Lemma binary_to_unicode_inverts_witness :
  binary_to_unicode (unicode_to_binary text_HI) = Ret text_HI.
Proof. apply (binary_to_unicode_inverts text_HI). byte_text. Defined.

(** X2. A string of [8 * n] binary digits converts to [n] characters, and
    converting those back to binary returns the digits. *)
Theorem unicode_to_binary_inverts (n : nat) (bits : pystr) :
  length bits = 8 * n -> binary_string bits ->
  exists text,
    binary_to_unicode bits = Ret text
    /\ length text = n
    /\ unicode_to_binary text = bits.
Proof.
  intros Hlen Hbin. exists (regroup bits).
  destruct (regroup_bytes n bits Hlen Hbin) as (Hn & Hl & Hback).
  split; [now apply binary_to_unicode_regroup|]. split; [exact Hn|].
  now rewrite unicode_to_binary_latin1.
Qed.

Lemma unicode_to_binary_inverts_witness :
  exists text,
    binary_to_unicode (unicode_to_binary text_HI) = Ret text
    /\ length text = 2
    /\ unicode_to_binary text = unicode_to_binary text_HI.
Proof.
  apply (unicode_to_binary_inverts 2 (unicode_to_binary text_HI)).
  - reflexivity.
  - vm_compute. binary_key.
Defined.

Lemma range_step_8_length (n : nat) : length (range_step n 8) = (n + 7) / 8.
Proof. unfold range_step. now rewrite length_map, length_seq. Qed.

Lemma regroup_length (bits : pystr) : length (regroup bits) = (length bits + 7) / 8.
Proof. unfold regroup, chunks8. now rewrite !length_map, range_step_8_length. Qed.

Lemma regroup_latin1 (bits : pystr) : latin1 (regroup bits).
Proof.
  unfold latin1, regroup, chunks8. rewrite map_map.
  apply Forall_map, Forall_forall. intros i _.
  pose proof (bits_value_bound (slice bits i (i + 8)) 0) as Hb.
  fold (bits_value (slice bits i (i + 8))) in Hb.
  assert (Hlen : length (slice bits i (i + 8)) <= 8).
  { unfold slice. rewrite length_firstn. lia. }
  assert (2 ^ N.of_nat (length (slice bits i (i + 8))) <= 2 ^ 8)%N
    by (apply N.pow_le_mono_r; lia).
  change (2 ^ 8)%N with 256%N in *. lia.
Qed.

(** X4. Any string of binary digits converts: to one character per group of
    eight digits, a shorter last group included, and every character has a
    code point in 0..255. *)
Theorem binary_to_unicode_bytes (bits : pystr) :
  binary_string bits ->
  exists text,
    binary_to_unicode bits = Ret text
    /\ length text = (length bits + 7) / 8
    /\ latin1 text.
Proof.
  intros Hbin. exists (regroup bits).
  split; [now apply binary_to_unicode_regroup|].
  split; [apply regroup_length|apply regroup_latin1].
Qed.

Lemma binary_to_unicode_bytes_witness :
  exists text,
    binary_to_unicode [char_1; char_0; char_1] = Ret text
    /\ length text = (length [char_1; char_0; char_1] + 7) / 8
    /\ latin1 text.
Proof. apply (binary_to_unicode_bytes [char_1; char_0; char_1]). binary_key. Defined.

(** X5. The binary form of any text is a string of '0' / '1' with at least
    eight digits per character: exactly eight per character when all code
    points are in 0..255, and more than that otherwise. *)
Theorem unicode_to_binary_shape (text : pystr) :
  binary_string (unicode_to_binary text)
  /\ 8 * length text <= length (unicode_to_binary text)
  /\ (latin1 text <-> length (unicode_to_binary text) = 8 * length text).
Proof.
  split; [apply unicode_to_binary_binary|].
  split; [apply unicode_to_binary_length_ge|]. split.
  - intros Hl. rewrite unicode_to_binary_latin1 by assumption.
    apply flat_map_eight_bits_length.
  - intros Hlen.
    destruct (latin1_or_not text) as [Hl|Hn]; [exact Hl|].
    apply not_latin1_exists, unicode_to_binary_length_gt in Hn. lia.
Qed.

Lemma bit_of_char_not_binary (c : N) : ~ binary_digit c -> bit_of_char c = None.
Proof.
  unfold binary_digit, bit_of_char. intros Hc.
  destruct (N.eqb_spec c char_0); [tauto|].
  destruct (N.eqb_spec c char_1); [tauto|]. reflexivity.
Qed.

Lemma binary_digit_or_not (c : N) : binary_digit c \/ ~ binary_digit c.
Proof.
  unfold binary_digit.
  destruct (N.eqb_spec c char_0); [tauto|].
  destruct (N.eqb_spec c char_1); tauto.
Qed.

Lemma int2_from_bad_digit (s : pystr) (c : N) :
  In c s -> ~ binary_digit c -> forall a, int2_from a s = Raise ValueError.
Proof.
  intros Hin Hc. induction s as [|x s IH]; intros a; [destruct Hin|].
  cbn [int2_from]. destruct Hin as [->|Hin].
  - now rewrite bit_of_char_not_binary.
  - destruct (bit_of_char x); [now apply IH|reflexivity].
Qed.

Lemma int2_from_outcome (s : pystr) (a : N) :
  (exists v, int2_from a s = Ret v) \/ int2_from a s = Raise ValueError.
Proof.
  revert a. induction s as [|x s IH]; intros a; cbn [int2_from].
  - left. now exists a.
  - destruct (bit_of_char x); [apply IH|now right].
Qed.

Lemma chunk_outcome (chunk : pystr) :
  (exists v, (n <- int_base2 chunk ;; chr n) = Ret v)
  \/ (n <- int_base2 chunk ;; chr n) = Raise ValueError.
Proof.
  unfold int_base2. destruct chunk as [|c r]; [now right|].
  destruct (int2_from_outcome (c :: r) 0) as [[v Hv]|Hv]; rewrite Hv; cbn [bind].
  - unfold chr. destruct (v <? 1114112)%N; [left; now exists v|now right].
  - now right.
Qed.

(** A comprehension whose elements return or raise [ValueError], one of
    them raising, raises [ValueError]. *)
Lemma map_each_raises {A B : Type} (f : A -> outcome B) (l : list A) :
  (forall x, In x l -> (exists y, f x = Ret y) \/ f x = Raise ValueError) ->
  (exists x, In x l /\ f x = Raise ValueError) ->
  map_each f l = Raise ValueError.
Proof.
  induction l as [|x l IH]; intros Hall [x0 [Hin Hx0]]; [destruct Hin|].
  cbn [map_each]. destruct (Hall x (or_introl eq_refl)) as [[y Hy]|Hy].
  - rewrite Hy. cbn [bind]. destruct Hin as [->|Hin]; [congruence|].
    rewrite IH; [reflexivity| |now exists x0].
    intros z Hz. apply Hall. now right.
  - now rewrite Hy.
Qed.

Lemma not_binary_position (s : pystr) :
  ~ binary_string s ->
  exists j, j < length s /\ ~ binary_digit (nth j s char_0).
Proof.
  unfold binary_string. induction s as [|c s IH]; intros Hn.
  - destruct Hn. constructor.
  - destruct (binary_digit_or_not c) as [Hc|Hc].
    + destruct IH as (j & Hj & Hbad).
      { intros Hs. apply Hn. now constructor. }
      exists (S j). split; [cbn; lia|exact Hbad].
    + exists 0. split; [cbn; lia|exact Hc].
Qed.

(** The group of eight that holds position [j]. *)
Lemma position_in_chunk (s : pystr) (j : nat) :
  j < length s ->
  In (8 * (j / 8)) (range_step (length s) 8)
  /\ In (nth j s char_0) (slice s (8 * (j / 8)) (8 * (j / 8) + 8)).
Proof.
  intros Hj.
  pose proof (Nat.div_mod_eq j 8) as Hdm.
  pose proof (Nat.mod_upper_bound j 8) as Hm.
  split.
  - unfold range_step. apply in_map_iff. exists (j / 8). split; [reflexivity|].
    apply in_seq. split; [lia|]. cbn [Nat.add Nat.sub].
    pose proof (Nat.div_mod_eq (length s + 7) 8) as Hdm'.
    pose proof (Nat.mod_upper_bound (length s + 7) 8) as Hm'.
    change (8 - 1) with 7. lia.
  - unfold slice. replace (8 * (j / 8) + 8 - 8 * (j / 8)) with 8 by lia.
    replace (nth j s char_0)
      with (nth (j mod 8) (firstn 8 (skipn (8 * (j / 8)) s)) char_0).
    + apply nth_In. rewrite length_firstn, length_skipn. lia.
    + rewrite nth_firstn.
      destruct (Nat.ltb_spec (j mod 8) 8) as [_|]; [|lia].
      rewrite nth_skipn. f_equal. lia.
Qed.

Lemma binary_to_unicode_not_binary (s : pystr) :
  ~ binary_string s -> binary_to_unicode s = Raise ValueError.
Proof.
  intros Hn. destruct (not_binary_position s Hn) as (j & Hj & Hbad).
  destruct (position_in_chunk s j Hj) as [Hidx Hin].
  unfold binary_to_unicode. apply map_each_raises.
  - intros i _. apply chunk_outcome.
  - exists (8 * (j / 8)). split; [exact Hidx|].
    unfold int_base2.
    destruct (slice s (8 * (j / 8)) (8 * (j / 8) + 8)) as [|c r] eqn:E;
      [reflexivity|].
    now rewrite (int2_from_bad_digit (c :: r) (nth j s char_0) Hin Hbad).
Qed.

(** X3. A string of decimal digits that is not all '0' / '1' is refused:
    [binary_to_unicode] raises [ValueError]. *)
Theorem binary_to_unicode_rejects (s : pystr) :
  Forall ascii_digit s -> ~ binary_string s ->
  binary_to_unicode s = Raise ValueError.
Proof. intros _. apply binary_to_unicode_not_binary. Qed.

Lemma binary_to_unicode_rejects_witness :
  binary_to_unicode [char_0; char_1; 50%N] = Raise ValueError.
Proof.
  apply (binary_to_unicode_rejects [char_0; char_1; 50%N]).
  - repeat (apply Forall_cons; [split; discriminate|]). apply Forall_nil.
  - intros H. unfold binary_string in H. rewrite Forall_forall in H.
    destruct (H 50%N); [right; right; left; reflexivity|discriminate|discriminate].
Defined.

(* ================================================================== *)
(** * The key-stretching loop, further *)

Lemma stretch_key_doubles (fuel : nat) (k : pystr) (n : nat) :
  k <> [] -> n <= fuel + length k ->
  exists k',
    stretch_key fuel k n = Ret k'
    /\ n <= length k'
    /\ (length k < n -> length k' < 2 * n)
    /\ (n <= length k -> k' = k)
    /\ exists j, length k' = 2 ^ j * length k.
Proof.
  revert k. induction fuel as [|fuel IH]; intros k Hne Hn.
  - cbn [stretch_key]. destruct (Nat.ltb_spec (length k) n); [lia|].
    exists k. repeat split; try lia. exists 0. cbn. lia.
  - cbn [stretch_key]. destruct (Nat.ltb_spec (length k) n) as [Hlt|Hge].
    + assert (Hlen : 0 < length k) by (destruct k; [congruence|cbn; lia]).
      destruct (IH (k ++ k)) as (k' & Hk & Hlong & Hshort & Hsame & j & Hj).
      { destruct k; [congruence|discriminate]. }
      { rewrite length_app. lia. }
      rewrite length_app in *.
      exists k'. split; [exact Hk|]. split; [exact Hlong|]. split; [|split].
      * intros _. destruct (Nat.lt_ge_cases (length k + length k) n) as [H1|H2].
        -- now apply Hshort.
        -- rewrite (Hsame H2), length_app. lia.
      * lia.
      * exists (S j). rewrite Hj. cbn [Nat.pow]. lia.
    + exists k. repeat split; try lia. exists 0. cbn. lia.
Qed.

(** X6. The key-stretching loop, with a non-empty key: it leaves a key that
    is already long enough as it is; otherwise it returns the key written
    end to end a power of two times, at least as long as the text and less
    than twice as long. *)
Theorem stretch_key_bounds (fuel : nat) (key : pystr) (n : nat) :
  key <> [] -> n <= fuel + length key ->
  exists k,
    stretch_key fuel key n = Ret k
    /\ n <= length k
    /\ (length key < n -> length k < 2 * n)
    /\ (n <= length key -> k = key)
    /\ (exists j, length k = 2 ^ j * length key)
    /\ forall i, i < length k ->
                 nth i k char_0 = nth (i mod length key) key char_0.
Proof.
  intros Hne Hn.
  destruct (stretch_key_doubles fuel key n Hne Hn)
    as (k & Hk & Hlong & Hshort & Hsame & Hpow).
  destruct (stretch_key_returns key fuel key n Hne (repeats_refl key) Hn)
    as (k' & Hk' & [_ Hrep] & _).
  assert (k' = k) by congruence. subst k'.
  exists k. repeat split; assumption.
Qed.

Lemma stretch_key_bounds_witness :
  exists k,
    stretch_key 12 key_1010 16 = Ret k
    /\ 16 <= length k
    /\ (length key_1010 < 16 -> length k < 2 * 16)
    /\ (16 <= length key_1010 -> k = key_1010)
    /\ (exists j, length k = 2 ^ j * length key_1010)
    /\ forall i, i < length k ->
                 nth i k char_0 = nth (i mod length key_1010) key_1010 char_0.
Proof.
  apply (stretch_key_bounds 12 key_1010 16).
  - discriminate.
  - cbn. lia.
Defined.

(* ================================================================== *)
(** * The cipher and its key *)

Lemma repeated_key_length (key : pystr) (n : nat) : length (repeated_key key n) = n.
Proof. unfold repeated_key. now rewrite length_map, length_seq. Qed.

Lemma repeated_key_nth (key : pystr) (n i : nat) :
  i < n -> nth i (repeated_key key n) char_0 = nth (i mod length key) key char_0.
Proof. intros Hi. unfold repeated_key. now rewrite nth_map_seq. Qed.

Lemma xor_repeated_key_same (bits k1 k2 : pystr) :
  repeated_key k1 (length bits) = repeated_key k2 (length bits) ->
  xor_repeated_key bits k1 = xor_repeated_key bits k2.
Proof.
  intros Hk. unfold xor_repeated_key. apply map_ext_in. intros i Hi.
  apply in_seq in Hi.
  rewrite <- (repeated_key_nth k1 (length bits) i) by lia.
  rewrite <- (repeated_key_nth k2 (length bits) i) by lia.
  now rewrite Hk.
Qed.

Lemma key_usable_binary (key : pystr) (n : nat) :
  key <> [] -> binary_string key -> key_usable key n.
Proof.
  intros Hne Hkey i _. apply nth_binary; [assumption|].
  apply Nat.mod_upper_bound. destruct key; [congruence|discriminate].
Qed.

Lemma xor_loop_usable (bits key k : pystr) :
  binary_string bits -> key_usable key (length bits) ->
  repeats key k -> length bits <= length k ->
  for_each (range (length bits)) (xor_step bits k) []
  = Ret (xor_repeated_key bits key).
Proof.
  intros Hbits Hkey [_ Hnth] Hlen.
  rewrite for_each_appends
    with (g := fun i => [xor_digit (nth i bits char_0)
                                   (nth (i mod length key) key char_0)]).
  - cbn [app]. now rewrite flat_map_singleton.
  - intros i acc Hi. apply in_seq in Hi. unfold xor_step.
    rewrite (getitem_nth bits i char_0) by lia. cbn [bind].
    rewrite int_char_binary by (apply nth_binary; [assumption|lia]). cbn [bind].
    rewrite (getitem_nth k i char_0) by lia. cbn [bind].
    rewrite Hnth by lia.
    rewrite int_char_binary by (apply Hkey; lia). cbn [bind].
    rewrite str_lxor_digits; [reflexivity| |].
    + apply nth_binary; [assumption|lia].
    + apply Hkey. lia.
Qed.

(** [encrypt] returns as soon as the key characters it reads are binary. *)
Lemma encrypt_returns_usable (fuel : nat) (text key : pystr) :
  key <> [] -> key_usable key (length (unicode_to_binary text)) ->
  length (unicode_to_binary text) <= fuel + length key ->
  encrypt fuel text key
  = Ret (regroup (xor_repeated_key (unicode_to_binary text) key)).
Proof.
  intros Hne Hkey Hfuel. unfold encrypt.
  set (bits := unicode_to_binary text) in *.
  assert (Hbin : binary_string bits) by apply unicode_to_binary_binary.
  destruct (stretch_key_returns key fuel key (length bits) Hne (repeats_refl key))
    as (k & Hk & Hrep & Hlong); [lia|].
  rewrite Hk. cbn [bind].
  rewrite (xor_loop_usable bits key k) by assumption. cbn [bind].
  apply binary_to_unicode_regroup, xor_repeated_key_binary.
Qed.

(** X7. An empty text encrypts, and decrypts, to the empty text: whatever
    the key, the empty key included, and without a single round of the
    stretching loop. *)
Theorem encrypt_empty_text (fuel : nat) (key : pystr) :
  encrypt fuel [] key = Ret [] /\ decrypt fuel [] key = Ret [].
Proof. destruct fuel; split; reflexivity. Qed.

Lemma mod_double (i l : nat) : (i mod (l + l)) mod l = i mod l.
Proof.
  pose proof (Nat.div_mod_eq i (l + l)) as Hdm.
  rewrite Hdm at 2.
  replace ((l + l) * (i / (l + l)) + i mod (l + l))
    with (i mod (l + l) + (2 * (i / (l + l))) * l) by lia.
  now rewrite Nat.Div0.mod_add.
Qed.

Lemma repeated_key_double (key : pystr) (n : nat) :
  key <> [] -> repeated_key (key ++ key) n = repeated_key key n.
Proof.
  intros Hne. unfold repeated_key. apply map_ext. intros i.
  destruct (repeats_double key key (repeats_refl key)) as [_ Hnth].
  assert (Hl : 0 < length key) by (destruct key; [congruence|cbn; lia]).
  rewrite Hnth.
  - rewrite length_app. now rewrite mod_double.
  - apply Nat.mod_upper_bound. rewrite length_app. lia.
Qed.

(** X8. Writing the key twice does not change the ciphertext: [encrypt]
    with [key + key] returns what it returns with [key]. *)
Theorem encrypt_doubled_key (fuel : nat) (text key : pystr) :
  key <> [] -> binary_string key ->
  length (unicode_to_binary text) <= fuel ->
  exists ciphertext,
    encrypt fuel text key = Ret ciphertext
    /\ encrypt fuel text (key ++ key) = Ret ciphertext.
Proof.
  intros Hne Hkey Hfuel. eexists. split.
  - now apply encrypt_returns.
  - rewrite encrypt_returns; try assumption.
    + f_equal. f_equal. apply xor_repeated_key_same.
      now apply repeated_key_double.
    + destruct key; [congruence|discriminate].
    + unfold binary_string in *. now apply Forall_app.
Qed.

Lemma encrypt_doubled_key_witness :
  exists ciphertext,
    encrypt 16 text_HI key_1010 = Ret ciphertext
    /\ encrypt 16 text_HI (key_1010 ++ key_1010) = Ret ciphertext.
Proof.
  apply (encrypt_doubled_key 16 text_HI key_1010).
  - discriminate.
  - binary_key.
  - apply le_n.
Defined.

Lemma repeated_key_prefix (key : pystr) (n : nat) :
  n <= length key -> repeated_key key n = firstn n key.
Proof.
  intros Hn. apply nth_ext with (d := char_0) (d' := char_0).
  - rewrite repeated_key_length, length_firstn. lia.
  - intros i Hi. rewrite repeated_key_length in Hi.
    rewrite repeated_key_nth by assumption.
    rewrite Nat.mod_small by lia. rewrite nth_firstn.
    destruct (Nat.ltb_spec i n); [reflexivity|lia].
Qed.

(** X9. Key characters beyond the bit length of the text are never read:
    two keys at least that long, equal and binary on that prefix, give the
    same ciphertext, whatever follows the prefix and whatever the fuel. *)
Theorem encrypt_ignores_key_tail (fuel : nat) (text key1 key2 : pystr) :
  let n := length (unicode_to_binary text) in
  n <= length key1 -> n <= length key2 ->
  firstn n key1 = firstn n key2 -> binary_string (firstn n key1) ->
  exists ciphertext,
    encrypt fuel text key1 = Ret ciphertext
    /\ encrypt fuel text key2 = Ret ciphertext.
Proof.
  intros n H1 H2 Heq Hbin.
  destruct text as [|c text].
  { exists []. destruct fuel; split; reflexivity. }
  assert (Hn : 0 < n).
  { subst n. apply unicode_to_binary_nonempty. discriminate. }
  assert (Hne : forall key : pystr, n <= length key -> key <> [])
    by (intros key Hk ->; cbn [length] in Hk; lia).
  pose proof (Hne key1 H1) as Hne1. pose proof (Hne key2 H2) as Hne2.
  assert (Huse : forall key, n <= length key -> binary_string (firstn n key) ->
                             key_usable key n).
  { intros key Hk Hb i Hi. rewrite Nat.mod_small by lia.
    replace (nth i key char_0) with (nth i (firstn n key) char_0).
    - apply nth_binary; [assumption|]. rewrite length_firstn. lia.
    - rewrite nth_firstn. destruct (Nat.ltb_spec i n); [reflexivity|lia]. }
  eexists. split.
  - apply encrypt_returns_usable; [assumption|now apply Huse|fold n; lia].
  - rewrite encrypt_returns_usable;
      [|assumption|apply Huse; [assumption|now rewrite <- Heq]|fold n; lia].
    f_equal. f_equal. apply xor_repeated_key_same. fold n.
    now rewrite !repeated_key_prefix by assumption.
Qed.

Lemma encrypt_ignores_key_tail_witness :
  exists ciphertext,
    encrypt 0 [72%N] [49; 48; 49; 48; 49; 48; 49; 48; 120]%N = Ret ciphertext
    /\ encrypt 0 [72%N] [49; 48; 49; 48; 49; 48; 49; 48; 50; 51]%N = Ret ciphertext.
Proof.
  apply (encrypt_ignores_key_tail 0 [72%N]
           [49; 48; 49; 48; 49; 48; 49; 48; 120]%N
           [49; 48; 49; 48; 49; 48; 49; 48; 50; 51]%N).
  - cbn. lia.
  - cbn. lia.
  - reflexivity.
  - cbn. binary_key.
Defined.

Lemma xor_step_output (text key : pystr) (i : nat) (acc : pystr) :
  xor_step text key i acc = (x <- xor_output text key i ;; Ret (acc ++ x)).
Proof.
  unfold xor_step, xor_output.
  destruct (getitem text i) as [t| |]; cbn [bind]; try reflexivity.
  destruct (int_char t) as [a| |]; cbn [bind]; try reflexivity.
  destruct (getitem key i) as [k| |]; cbn [bind]; try reflexivity.
  destruct (int_char k) as [b| |]; cbn [bind]; reflexivity.
Qed.

(** A loop that appends what each round produces is a comprehension
    followed by a join. *)
Lemma for_each_collect {A : Type} (body : nat -> list A -> outcome (list A))
      (h : nat -> outcome (list A)) (l : list nat) :
  (forall i acc, body i acc = (x <- h i ;; Ret (acc ++ x))) ->
  forall acc,
    for_each l body acc = (xs <- map_each h l ;; Ret (acc ++ concat xs)).
Proof.
  intros Hb. induction l as [|i l IH]; intros acc; cbn [for_each map_each bind].
  - cbn [concat]. now rewrite app_nil_r.
  - rewrite Hb. destruct (h i) as [x| |]; cbn [bind]; try reflexivity.
    rewrite IH. destruct (map_each h l) as [xs| |]; cbn [bind concat];
      try reflexivity.
    now rewrite app_assoc.
Qed.

Lemma map_each_outcome {A B : Type} (f : A -> outcome B) (l : list A) :
  (forall x, In x l -> (exists y, f x = Ret y) \/ f x = Raise ValueError) ->
  map_each f l = Raise ValueError
  \/ exists ys, map_each f l = Ret ys
                /\ forall x, In x l -> exists y, f x = Ret y /\ In y ys.
Proof.
  induction l as [|x l IH]; intros Hall.
  - right. exists []. split; [reflexivity|]. intros x [].
  - cbn [map_each]. destruct (Hall x (or_introl eq_refl)) as [[y Hy]|Hy].
    + rewrite Hy. cbn [bind].
      destruct IH as [Hr|(ys & Hys & Hin)].
      { intros z Hz. apply Hall. now right. }
      * left. now rewrite Hr.
      * right. exists (y :: ys). rewrite Hys. split; [reflexivity|].
        intros z [<-|Hz].
        -- exists y. split; [assumption|now left].
        -- destruct (Hin z Hz) as (w & Hw & Hiw). exists w.
           split; [assumption|now right].
    + left. now rewrite Hy.
Qed.

Lemma int_char_outcome (c : N) :
  (exists b, int_char c = Ret b) \/ int_char c = Raise ValueError.
Proof.
  unfold int_char. destruct ((48 <=? c)%N && (c <=? 57)%N);
    [left; eauto|now right].
Qed.

(** A digit other than '0' / '1' against a bit: the loop appends one
    character, and it is not a binary digit. *)
Lemma xor_with_bad_digit (t k : N) (b : N) :
  binary_digit t -> ~ binary_digit k -> int_char k = Ret b ->
  exists c, str_N (N.lxor (digit_value t) b) = [c] /\ ~ binary_digit c.
Proof.
  unfold int_char, binary_digit. intros Ht Hk Hb.
  destruct ((48 <=? k)%N && (k <=? 57)%N) eqn:E; [|discriminate].
  apply andb_prop in E. destruct E as [E1 E2].
  apply N.leb_le in E1, E2. injection Hb as <-.
  assert (Hcases : (k = 50 \/ k = 51 \/ k = 52 \/ k = 53 \/ k = 54 \/ k = 55
                    \/ k = 56 \/ k = 57)%N)
    by (unfold char_0, char_1 in Hk; lia).
  destruct Ht as [->| ->];
    repeat (destruct Hcases as [->|Hcases]); try subst k;
    (eexists; split; [reflexivity|intros [H|H]; discriminate H]).
Qed.

Lemma key_usable_or_not (key : pystr) (n : nat) :
  key_usable key n
  \/ exists i, i < n /\ ~ binary_digit (nth (i mod length key) key char_0).
Proof.
  unfold key_usable. induction n as [|n [IH|(i & Hi & Hbad)]].
  - left. intros i Hi. lia.
  - destruct (binary_digit_or_not (nth (n mod length key) key char_0)) as [Hb|Hb].
    + left. intros i Hi. destruct (Nat.eq_dec i n) as [->|]; [exact Hb|].
      apply IH. lia.
    + right. exists n. split; [lia|exact Hb].
  - right. exists i. split; [lia|exact Hbad].
Qed.

Lemma encrypt_bad_key (fuel : nat) (text key : pystr) (i : nat) :
  key <> [] -> length (unicode_to_binary text) <= fuel + length key ->
  i < length (unicode_to_binary text) ->
  ~ binary_digit (nth (i mod length key) key char_0) ->
  encrypt fuel text key = Raise ValueError.
Proof.
  intros Hne Hfuel Hi Hbad. unfold encrypt.
  set (bits := unicode_to_binary text) in *.
  assert (Hbin : binary_string bits) by apply unicode_to_binary_binary.
  destruct (stretch_key_returns key fuel key (length bits) Hne (repeats_refl key))
    as (k & Hk & [_ Hrep] & Hlong); [lia|].
  rewrite Hk. cbn [bind].
  rewrite (for_each_collect (xor_step bits k) (xor_output bits k))
    by apply xor_step_output.
  assert (Hround : forall j, j < length bits ->
            xor_output bits k j
            = (b <- int_char (nth (j mod length key) key char_0) ;;
               Ret (str_N (N.lxor (digit_value (nth j bits char_0)) b)))).
  { intros j Hj. unfold xor_output.
    rewrite (getitem_nth bits j char_0) by lia. cbn [bind].
    rewrite int_char_binary by (apply nth_binary; [assumption|lia]). cbn [bind].
    rewrite (getitem_nth k j char_0) by lia. cbn [bind].
    now rewrite Hrep by lia. }
  destruct (map_each_outcome (B := list N) (xor_output bits k)
                             (range (length bits)))
    as [Hr|(xs & Hxs & Hin)].
  { intros j Hj. apply in_seq in Hj. rewrite Hround by lia.
    destruct (int_char_outcome (nth (j mod length key) key char_0))
      as [[b Hb]|Hb]; rewrite Hb; cbn [bind]; [left; eauto|now right]. }
  - now rewrite Hr.
  - rewrite Hxs. cbn [bind app].
    apply binary_to_unicode_not_binary. intros Hall.
    destruct (Hin i) as (y & Hy & Hiy); [apply in_seq; lia|].
    rewrite Hround in Hy by assumption.
    destruct (int_char (nth (i mod length key) key char_0)) as [b| |] eqn:Hb;
      cbn [bind] in Hy; try discriminate.
    injection Hy as <-.
    destruct (xor_with_bad_digit (nth i bits char_0)
                (nth (i mod length key) key char_0) b)
      as (c & Hc & Hcbad); try assumption.
    { apply nth_binary; [assumption|lia]. }
    apply Hcbad. unfold binary_string in Hall. rewrite Forall_forall in Hall.
    apply Hall. apply in_concat. eexists. split; [exact Hiy|].
    rewrite Hc. now left.
Qed.

(** X10. [encrypt] checks the key characters it reads, and only those: with
    a non-empty key of ASCII characters it returns when every character read
    is '0' or '1', and raises [ValueError] otherwise. *)
Theorem encrypt_key_check (fuel : nat) (text key : pystr) :
  key <> [] -> Forall (fun c => (c < 128)%N) key ->
  length (unicode_to_binary text) <= fuel ->
  (key_usable key (length (unicode_to_binary text)) ->
   exists ciphertext, encrypt fuel text key = Ret ciphertext)
  /\ (~ key_usable key (length (unicode_to_binary text)) ->
      encrypt fuel text key = Raise ValueError).
Proof.
  intros Hne _ Hfuel. split.
  - intros Huse. eexists. apply encrypt_returns_usable; [assumption..|lia].
  - intros Hnot.
    destruct (key_usable_or_not key (length (unicode_to_binary text)))
      as [Huse|(i & Hi & Hbad)]; [contradiction|].
    apply (encrypt_bad_key fuel text key i); try assumption. lia.
Qed.

Lemma encrypt_key_check_witness :
  (key_usable [49; 50]%N (length (unicode_to_binary text_HI)) ->
   exists ciphertext, encrypt 16 text_HI [49; 50]%N = Ret ciphertext)
  /\ (~ key_usable [49; 50]%N (length (unicode_to_binary text_HI)) ->
      encrypt 16 text_HI [49; 50]%N = Raise ValueError).
Proof.
  apply (encrypt_key_check 16 text_HI [49; 50]%N).
  - discriminate.
  - repeat (apply Forall_cons; [reflexivity|]). apply Forall_nil.
  - apply le_n.
Defined.

Lemma xor_digit_same_key (x a b : N) :
  binary_digit a -> binary_digit b ->
  xor_digit x a = xor_digit x b -> a = b.
Proof.
  unfold xor_digit, digit_value.
  intros [->| ->] [->| ->]; cbn; destruct (x =? char_1)%N; cbn;
    intros H; try reflexivity; discriminate H.
Qed.

(** XOR-ing the same bits with two keys gives the same result exactly when
    the two keys, repeated, agree over the length of the bits. *)
Lemma xor_repeated_key_inj (bits k1 k2 : pystr) :
  key_usable k1 (length bits) -> key_usable k2 (length bits) ->
  xor_repeated_key bits k1 = xor_repeated_key bits k2 ->
  repeated_key k1 (length bits) = repeated_key k2 (length bits).
Proof.
  intros H1 H2 Heq. unfold repeated_key. apply map_ext_in. intros i Hi.
  apply in_seq in Hi.
  apply (f_equal (fun l => nth i l char_0)) in Heq.
  unfold xor_repeated_key in Heq. rewrite !nth_map_seq in Heq by lia.
  eapply xor_digit_same_key; [apply H1; lia|apply H2; lia|exact Heq].
Qed.

Lemma xor_cipher_spec_inj (text key : pystr) (bits : pystr) :
  latin1 text ->
  xor_cipher_spec text key = regroup bits ->
  length bits = 8 * length text -> binary_string bits ->
  xor_repeated_key (flat_map eight_bits text) key = bits.
Proof.
  intros Hl Heq Hlen Hbin.
  destruct (xor_cipher_spec_bytes text key) as (_ & _ & Hbits).
  destruct (regroup_bytes (length text) bits Hlen Hbin) as (_ & _ & Hback).
  rewrite <- Hbits, Heq. exact Hback.
Qed.

(** X11. Decrypting with another key: for a text of code points 0..255 and
    two non-empty binary keys, decrypting with the second key what the first
    key encrypted returns the text exactly when the two keys, repeated, agree
    on the first [8 * len(text)] characters. *)
Theorem decrypt_other_key (text key1 key2 : pystr) (fuel1 fuel2 : nat) :
  latin1 text ->
  key1 <> [] -> binary_string key1 -> key2 <> [] -> binary_string key2 ->
  8 * length text <= fuel1 -> 8 * length text <= fuel2 ->
  exists ciphertext,
    encrypt fuel1 text key1 = Ret ciphertext
    /\ (decrypt fuel2 ciphertext key2 = Ret text
        <-> repeated_key key1 (8 * length text)
            = repeated_key key2 (8 * length text)).
Proof.
  intros Hl Hne1 Hk1 Hne2 Hk2 Hf1 Hf2.
  exists (xor_cipher_spec text key1).
  split; [now apply encrypt_latin1|].
  destruct (xor_cipher_spec_bytes text key1) as (Hlen & Hbytes & Hbits).
  rewrite decrypt_unfold, encrypt_latin1 by (try assumption; now rewrite Hlen).
  set (bits := flat_map eight_bits text) in *.
  assert (Hblen : length bits = 8 * length text)
    by apply flat_map_eight_bits_length.
  assert (Hbbin : binary_string bits) by apply flat_map_eight_bits_binary.
  assert (Hxlen : length (xor_repeated_key bits key1) = 8 * length text)
    by now rewrite xor_repeated_key_length.
  unfold xor_cipher_spec at 1. rewrite Hbits. split.
  - intros Heq. injection Heq as Heq.
    assert (Hx : xor_repeated_key (xor_repeated_key bits key1) key2 = bits).
    { destruct (regroup_bytes (length text)
                  (xor_repeated_key (xor_repeated_key bits key1) key2))
        as (_ & _ & Hback).
      - now rewrite xor_repeated_key_length.
      - apply xor_repeated_key_binary.
      - rewrite <- Hback, Heq. reflexivity. }
    rewrite <- (xor_repeated_key_twice bits key1 Hbbin) in Hx at 2.
    rewrite <- Hxlen. symmetry.
    apply xor_repeated_key_inj;
      [now apply key_usable_binary|now apply key_usable_binary|].
    now symmetry.
  - intros Hsame. f_equal.
    rewrite (xor_repeated_key_same (xor_repeated_key bits key1) key2 key1)
      by (rewrite Hxlen; now symmetry).
    rewrite xor_repeated_key_twice by assumption.
    now apply regroup_eight_bits.
Qed.

Lemma decrypt_other_key_witness :
  exists ciphertext,
    encrypt 16 text_HI key_1010 = Ret ciphertext
    /\ (decrypt 16 ciphertext [49; 48]%N = Ret text_HI
        <-> repeated_key key_1010 (8 * length text_HI)
            = repeated_key [49; 48]%N (8 * length text_HI)).
Proof.
  apply (decrypt_other_key text_HI key_1010 [49; 48]%N 16 16).
  - byte_text.
  - discriminate.
  - binary_key.
  - discriminate.
  - binary_key.
  - apply le_n.
  - apply le_n.
Defined.

Lemma xor_digit_zero (x k : N) :
  binary_digit x -> binary_digit k -> (xor_digit x k = x <-> k = char_0).
Proof.
  unfold xor_digit, digit_value.
  intros [->| ->] [->| ->]; cbn; split; intros H;
    try reflexivity; discriminate H.
Qed.

(** X12. The ciphertext is the text itself exactly when every key bit read
    is '0': for a text of code points 0..255 and a non-empty binary key. *)
Theorem encrypt_identity_key (fuel : nat) (text key : pystr) :
  latin1 text -> key <> [] -> binary_string key ->
  8 * length text <= fuel ->
  (encrypt fuel text key = Ret text
   <-> forall i, i < 8 * length text ->
                 nth (i mod length key) key char_0 = char_0).
Proof.
  intros Hl Hne Hkey Hfuel.
  rewrite encrypt_latin1 by assumption.
  set (bits := flat_map eight_bits text).
  assert (Hblen : length bits = 8 * length text)
    by apply flat_map_eight_bits_length.
  assert (Hbbin : binary_string bits) by apply flat_map_eight_bits_binary.
  assert (Huse : key_usable key (length bits)) by now apply key_usable_binary.
  split.
  - intros Heq. injection Heq as Heq.
    rewrite <- (regroup_eight_bits text Hl) in Heq at 2. fold bits in Heq.
    apply xor_cipher_spec_inj in Heq; try assumption. fold bits in Heq.
    intros i Hi.
    apply (f_equal (fun l => nth i l char_0)) in Heq.
    unfold xor_repeated_key in Heq. rewrite nth_map_seq in Heq by lia.
    apply (xor_digit_zero (nth i bits char_0)); [|apply Huse; lia|exact Heq].
    apply nth_binary; [assumption|lia].
  - intros Hzero. f_equal. unfold xor_cipher_spec. fold bits.
    replace (xor_repeated_key bits key) with bits;
      [now apply regroup_eight_bits|].
    symmetry. unfold xor_repeated_key.
    transitivity (map (fun i => nth i bits char_0) (seq 0 (length bits)));
      [|apply map_nth_seq].
    apply map_ext_in. intros i Hi. apply in_seq in Hi.
    apply xor_digit_zero; [apply nth_binary; [assumption|lia]|apply Huse; lia|].
    apply Hzero. lia.
Qed.

Lemma encrypt_identity_key_witness :
  encrypt 16 text_HI [char_0] = Ret text_HI
  <-> forall i, i < 8 * length text_HI ->
                nth (i mod length [char_0]) [char_0] char_0 = char_0.
Proof.
  apply (encrypt_identity_key 16 text_HI [char_0]).
  - byte_text.
  - discriminate.
  - binary_key.
  - apply le_n.
Defined.

Lemma xor_digit_swap (x a b : N) :
  xor_digit (xor_digit x a) b = xor_digit (xor_digit x b) a.
Proof.
  unfold xor_digit, digit_value.
  destruct (x =? char_1)%N, (a =? char_1)%N, (b =? char_1)%N; reflexivity.
Qed.

Lemma xor_repeated_key_swap (bits k1 k2 : pystr) :
  xor_repeated_key (xor_repeated_key bits k1) k2
  = xor_repeated_key (xor_repeated_key bits k2) k1.
Proof.
  unfold xor_repeated_key at 1 3. rewrite !xor_repeated_key_length.
  apply map_ext_in. intros i Hi. apply in_seq in Hi.
  unfold xor_repeated_key. rewrite !nth_map_seq by lia.
  apply xor_digit_swap.
Qed.

(** X13. Encrypting with two keys in turn gives the same result in either
    order: for a text of code points 0..255 and non-empty binary keys. *)
Theorem encrypt_two_keys_commute (fuel : nat) (text key1 key2 : pystr) :
  latin1 text ->
  key1 <> [] -> binary_string key1 -> key2 <> [] -> binary_string key2 ->
  8 * length text <= fuel ->
  exists c1 c2 result,
    encrypt fuel text key1 = Ret c1
    /\ encrypt fuel text key2 = Ret c2
    /\ encrypt fuel c1 key2 = Ret result
    /\ encrypt fuel c2 key1 = Ret result.
Proof.
  intros Hl Hne1 Hk1 Hne2 Hk2 Hfuel.
  destruct (xor_cipher_spec_bytes text key1) as (Hlen1 & Hb1 & Hbits1).
  destruct (xor_cipher_spec_bytes text key2) as (Hlen2 & Hb2 & Hbits2).
  exists (xor_cipher_spec text key1), (xor_cipher_spec text key2),
    (xor_cipher_spec (xor_cipher_spec text key1) key2).
  split; [now apply encrypt_latin1|]. split; [now apply encrypt_latin1|].
  split; [apply encrypt_latin1; try assumption; now rewrite Hlen1|].
  rewrite encrypt_latin1 by (try assumption; now rewrite Hlen2).
  f_equal. unfold xor_cipher_spec at 1 3. rewrite Hbits1, Hbits2.
  f_equal. apply xor_repeated_key_swap.
Qed.

Lemma encrypt_two_keys_commute_witness :
  exists c1 c2 result,
    encrypt 16 text_HI key_1010 = Ret c1
    /\ encrypt 16 text_HI [49; 49; 48]%N = Ret c2
    /\ encrypt 16 c1 [49; 49; 48]%N = Ret result
    /\ encrypt 16 c2 key_1010 = Ret result.
Proof.
  apply (encrypt_two_keys_commute 16 text_HI key_1010 [49; 49; 48]%N).
  - byte_text.
  - discriminate.
  - binary_key.
  - discriminate.
  - binary_key.
  - apply le_n.
Defined.

(** X14. A text with a code point above 255 does not survive the round
    trip: with a non-empty binary key [encrypt] returns a ciphertext with
    more characters than the text, and [decrypt] returns from it a string of
    that greater length, so not the text. *)
Theorem round_trip_out_of_range (text key : pystr) (fuel1 fuel2 : nat) :
  Exists (fun c => (255 < c)%N) text ->
  key <> [] -> binary_string key ->
  length (unicode_to_binary text) <= fuel1 ->
  length (unicode_to_binary text) + 7 <= fuel2 ->
  exists ciphertext decrypted,
    encrypt fuel1 text key = Ret ciphertext
    /\ length text < length ciphertext
    /\ decrypt fuel2 ciphertext key = Ret decrypted
    /\ length decrypted = length ciphertext
    /\ decrypted <> text.
Proof.
  intros Hbig Hne Hkey Hf1 Hf2.
  set (x := xor_repeated_key (unicode_to_binary text) key).
  assert (Hxlen : length x = length (unicode_to_binary text))
    by apply xor_repeated_key_length.
  pose proof (unicode_to_binary_length_gt text Hbig) as Hgt.
  assert (Hclen : length (regroup x) = (length x + 7) / 8) by apply regroup_length.
  pose proof (Nat.div_mod_eq (length x + 7) 8) as Hdm.
  pose proof (Nat.mod_upper_bound (length x + 7) 8) as Hm.
  assert (Hlonger : length text < length (regroup x)) by lia.
  destruct (xor_cipher_spec_bytes (regroup x) key) as (Hdlen & _ & _).
  exists (regroup x), (xor_cipher_spec (regroup x) key).
  split; [now apply encrypt_returns|]. split; [exact Hlonger|].
  split.
  - rewrite decrypt_unfold. apply encrypt_latin1; try assumption.
    + apply regroup_latin1.
    + lia.
  - split; [exact Hdlen|]. intros Heq. rewrite Heq in Hdlen. lia.
Qed.

Lemma round_trip_out_of_range_witness :
  exists ciphertext decrypted,
    encrypt 22 [72; 8364]%N key_1010 = Ret ciphertext
    /\ length [72; 8364]%N < length ciphertext
    /\ decrypt 29 ciphertext key_1010 = Ret decrypted
    /\ length decrypted = length ciphertext
    /\ decrypted <> [72; 8364]%N.
Proof.
  apply (round_trip_out_of_range [72; 8364]%N key_1010 22 29).
  - apply Exists_cons_tl, Exists_cons_hd. reflexivity.
  - discriminate.
  - binary_key.
  - vm_compute. lia.
  - vm_compute. lia.
Defined.

(* ================================================================== *)
(** * The key generator, further *)





(** X16. The returned key can be shorter than [min_key_length]: for
    [min_key_length >= 1] and proper draws it has at least [min_key_length]
    characters exactly when the bases agree on at least
    [2 * min_key_length - 1] of the [4 * min_key_length] qubits. *)
Theorem key_length_promise (min_key_length : Z) (rnd : Randomness) :
  (1 <= min_key_length)%Z -> unit_draws rnd ->
  let num_bits := Z.to_nat (min_key_length * 4) in
  let L := length (kept_positions num_bits (choices (draw_bases_A rnd) num_bits)
                                  (choices (draw_bases_B rnd) num_bits)) in
  exists key,
    gen_bin_key min_key_length rnd = Ret key
    /\ (Z.to_nat min_key_length <= length key
        <-> 2 * Z.to_nat min_key_length - 1 <= L).
Proof.
  intros Hm Hu num_bits L.
  destruct (gen_bin_key_runs min_key_length rnd Hm) as [_ Hrun].
  fold num_bits in Hrun. eexists. split; [exact Hrun|].
  rewrite sifted_agree, convert_half_identical by assumption.
  rewrite flat_map_str_bit_length, length_skipn.
  unfold sifted_A. rewrite length_map. fold L.
  pose proof (int_half_floor L). lia.
Qed.

Lemma key_length_promise_witness :
  let num_bits := Z.to_nat (1 * 4) in
  let L := length (kept_positions num_bits (choices (draw_bases_A rnd_one_match) num_bits)
                                  (choices (draw_bases_B rnd_one_match) num_bits)) in
  exists key,
    gen_bin_key 1 rnd_one_match = Ret key
    /\ (Z.to_nat 1 <= length key <-> 2 * Z.to_nat 1 - 1 <= L).
Proof.
  apply (key_length_promise 1 rnd_one_match).
  - discriminate.
  - intros q. split; reflexivity || discriminate.
Defined.

Lemma filter_none {A : Type} (f : A -> bool) (l : list A) :
  (forall x, In x l -> f x = false) -> filter f l = [].
Proof.
  induction l as [|x l IH]; intros Hf; [reflexivity|].
  cbn [filter]. rewrite (Hf x) by now left.
  apply IH. intros y Hy. apply Hf. now right.
Qed.

(** X17. When the two parties' bases differ on every qubit, nothing
    survives sifting and [gen_bin_key] returns the empty string, not an
    error: for every [min_key_length >= 1]. *)
Theorem gen_bin_key_no_match (min_key_length : Z) (rnd : Randomness) :
  (1 <= min_key_length)%Z ->
  (forall q, q < Z.to_nat (min_key_length * 4) ->
             draw_bases_A rnd q <> draw_bases_B rnd q) ->
  gen_bin_key min_key_length rnd = Ret [].
Proof.
  intros Hm Hdiff.
  destruct (gen_bin_key_runs min_key_length rnd Hm) as [_ Hrun].
  rewrite Hrun. unfold sifted_A, sifted_B, kept_positions.
  rewrite filter_none; [reflexivity|].
  intros i Hi. apply in_seq in Hi.
  unfold choices. rewrite !nth_map_seq by lia.
  destruct (Basis_eqb _ _) eqn:E; [|reflexivity].
  apply Basis_eqb_eq in E. exfalso. apply (Hdiff i); [lia|exact E].
Qed.

Lemma gen_bin_key_no_match_witness :
  gen_bin_key 3
    {| draw_key := fun _ => One;
       draw_bases_A := fun _ => BasisZ;
       draw_bases_B := fun _ => BasisX;
       draw_unit := fun _ => half |}
  = Ret [].
Proof.
  apply (gen_bin_key_no_match 3).
  - discriminate.
  - intros q _. discriminate.
Defined.

Lemma measurement_other_basis (basisA basisB : Basis) (bit : Bit) (u : Q) :
  basisA <> basisB ->
  measurement basisA bit basisB u = if Qle_bool (1 # 2) u then One else Zero.
Proof. destruct basisA, basisB, bit; intros H; try congruence; reflexivity. Qed.

(** X18. A qubit measured in the other basis is a fair coin: both outcomes
    have probability 1/2 whatever bit was encoded, and in the simulated
    circuit every qubit whose two bases differ is read as 0 when its draw is
    below 1/2 and as 1 otherwise. *)
Theorem measurement_fair_on_mismatch (rnd : Randomness) (num_bits : nat) :
  0 < num_bits ->
  (forall basisA basisB bit outcome,
      basisA <> basisB ->
      (prob outcome (apply_gate (basis_gates basisB) (prepare basisA bit))
       == 1 # 2)%Q)
  /\ exists bb84 decoder_key,
      bb84_circuit num_bits (choices (draw_key rnd) num_bits)
                   (choices (draw_bases_A rnd) num_bits)
                   (choices (draw_bases_B rnd) num_bits)
      = Ret bb84
      /\ lookup_measurement (measurements (sim_run (draw_unit rnd) bb84))
                            second_person_key
         = Ret decoder_key
      /\ forall q,
          q < num_bits ->
          draw_bases_A rnd q <> draw_bases_B rnd q ->
          nth_error decoder_key q
          = Some (if Qle_bool (1 # 2) (draw_unit rnd q) then One else Zero).
Proof.
  intros Hn. split.
  - intros basisA basisB bit outcome Hne.
    destruct basisA, basisB, bit, outcome; try congruence; reflexivity.
  - eexists. exists (decoder_key_of rnd num_bits).
    split; [now apply bb84_circuit_built|].
    split; [apply simulation_reads|].
    intros q Hq Hb.
    rewrite (nth_error_nth' _ Zero) by now rewrite decoder_key_of_length.
    rewrite decoder_key_of_nth by assumption. f_equal.
    now apply measurement_other_basis.
Qed.

Lemma measurement_fair_on_mismatch_witness :
  (forall basisA basisB bit outcome,
      basisA <> basisB ->
      (prob outcome (apply_gate (basis_gates basisB) (prepare basisA bit))
       == 1 # 2)%Q)
  /\ exists bb84 decoder_key,
      bb84_circuit 4 (choices (draw_key rnd_one_match) 4)
                   (choices (draw_bases_A rnd_one_match) 4)
                   (choices (draw_bases_B rnd_one_match) 4)
      = Ret bb84
      /\ lookup_measurement (measurements (sim_run (draw_unit rnd_one_match) bb84))
                            second_person_key
         = Ret decoder_key
      /\ forall q,
          q < 4 ->
          draw_bases_A rnd_one_match q <> draw_bases_B rnd_one_match q ->
          nth_error decoder_key q
          = Some (if Qle_bool (1 # 2) (draw_unit rnd_one_match q) then One else Zero).
Proof.
  apply (measurement_fair_on_mismatch rnd_one_match 4). apply Nat.lt_0_succ.
Defined.

(* ================================================================== *)
(** * Generating a key and using it *)

Lemma encrypt_empty_key (fuel : nat) (text : pystr) :
  text <> [] -> encrypt fuel text [] = OutOfFuel.
Proof.
  intros Htext. unfold encrypt.
  now rewrite stretch_key_empty by now apply unicode_to_binary_nonempty.
Qed.

Lemma notebook_msg_latin1 : latin1 notebook_msg.
Proof. vm_compute. byte_text. Qed.

(** A generated key put to use on a text of code points 0..255. *)
Lemma key_then_cipher (min_key_length : Z) (rnd : Randomness) (msg : pystr)
      (fuel : nat) :
  (1 <= min_key_length)%Z -> unit_draws rnd ->
  latin1 msg -> msg <> [] -> 8 * length msg <= fuel ->
  let L := length (sifted_A rnd (Z.to_nat (min_key_length * 4))) in
  exists key,
    gen_bin_key min_key_length rnd = Ret key
    /\ binary_string key
    /\ length key = L - int_half L
    /\ (L = 0 -> forall fuel', encrypt fuel' msg key = OutOfFuel)
    /\ (0 < L ->
        key <> []
        /\ exists encrypted_text,
            encrypt fuel msg key = Ret encrypted_text
            /\ length encrypted_text = length msg
            /\ decrypt fuel encrypted_text key = Ret msg).
Proof.
  intros Hm Hu Hl Hmsg Hfuel.
  destruct (gen_bin_key_runs min_key_length rnd Hm) as [_ Hrun].
  revert Hrun. generalize (Z.to_nat (min_key_length * 4)). intros n Hrun L.
  rewrite sifted_agree, convert_half_identical in Hrun by assumption.
  fold L in Hrun.
  assert (Hklen : length (flat_map str_bit (skipn (int_half L) (sifted_A rnd n)))
                  = L - int_half L).
  { rewrite flat_map_str_bit_length, length_skipn. reflexivity. }
  pose proof (flat_map_str_bit_binary (skipn (int_half L) (sifted_A rnd n))) as Hbin.
  pose proof (int_half_floor L) as Hhalf.
  revert Hrun Hklen Hbin.
  generalize (flat_map str_bit (skipn (int_half L) (sifted_A rnd n))).
  clearbody L. intros key Hrun Hklen Hbin.
  exists key. split; [exact Hrun|]. split; [exact Hbin|]. split; [exact Hklen|].
  split.
  - intros HL fuel'.
    assert (Hk : key = []) by (destruct key; [reflexivity|cbn [length] in Hklen; lia]).
    rewrite Hk. now apply encrypt_empty_key.
  - intros HL.
    assert (Hne : key <> [])
      by (intros Hk; rewrite Hk in Hklen; cbn [length] in Hklen; lia).
    split; [exact Hne|].
    destruct (xor_cipher_spec_bytes msg key) as (Hclen & Hcl & _).
    exists (xor_cipher_spec msg key).
    split; [now apply encrypt_latin1|]. split; [exact Hclen|].
    rewrite decrypt_unfold, encrypt_latin1; try assumption.
    + now rewrite xor_cipher_spec_twice.
    + now rewrite Hclen.
Qed.

(** X19. The usage cell, for proper draws.  When at least one basis matches,
    the generated key is a non-empty string of '0' / '1', the ciphertext has
    the 36 characters of the message, and decrypting returns the message.
    When no basis matches, the key is empty and the cell never finishes:
    [encrypt] runs out of any fuel. *)
Theorem example_usage_runs (rnd : Randomness) (fuel : nat) :
  unit_draws rnd -> 8 * 36 <= fuel ->
  let L := length (sifted_A rnd (Z.to_nat (100 * 4))) in
  (L = 0 -> forall fuel', example_usage rnd fuel' = OutOfFuel)
  /\ (0 < L ->
      exists key encrypted_text,
        example_usage rnd fuel = Ret (key, encrypted_text, notebook_msg)
        /\ key <> [] /\ binary_string key
        /\ length key = L - int_half L
        /\ length encrypted_text = 36).
Proof.
  intros Hu Hfuel.
  assert (Hm : (1 <= 100)%Z) by discriminate.
  assert (Hmsg : notebook_msg <> []) by discriminate.
  pose proof (key_then_cipher 100 rnd notebook_msg fuel Hm Hu
                notebook_msg_latin1 Hmsg Hfuel) as H.
  cbv zeta in H. destruct H as (key & Hrun & Hbin & Hklen & Hzero & Hpos).
  intros L. fold L in Hklen, Hzero, Hpos. clearbody L.
  unfold example_usage. rewrite Hrun. cbn [bind]. split.
  - intros HL fuel'. now rewrite (Hzero HL fuel').
  - intros HL. destruct (Hpos HL) as (Hne & enc & Henc & Hlen & Hdec).
    exists key, enc. rewrite Henc. cbn [bind]. rewrite Hdec. cbn [bind].
    repeat split; assumption.
Qed.

Lemma example_usage_runs_witness :
  let L := length (sifted_A rnd_all_Z (Z.to_nat (100 * 4))) in
  (L = 0 -> forall fuel', example_usage rnd_all_Z fuel' = OutOfFuel)
  /\ (0 < L ->
      exists key encrypted_text,
        example_usage rnd_all_Z (8 * 36) = Ret (key, encrypted_text, notebook_msg)
        /\ key <> [] /\ binary_string key
        /\ length key = L - int_half L
        /\ length encrypted_text = 36).
Proof.
  apply (example_usage_runs rnd_all_Z (8 * 36)).
  - intros q. split; reflexivity || discriminate.
  - apply le_n.
Defined.
